(** * The Composite fleet model of Lab2/main.py

    A shallow embedding of [FleetComponent], [FleetGroup], [Vehicle] and
    [FleetConsoleApp].  Python objects live in a store and are named by
    references, so that the group kept in [energy_groups] and the child of
    the root group are one object.  Console input and output are a list of
    pending lines and a list of written events. *)

From Stdlib Require Import ZArith.
From stdpp Require Import gmap list strings pretty.

Open Scope Z_scope.

(** ** Python strings and the builtins the program calls *)

(** A [str] is a sequence of Unicode code points. *)
Abbreviation char := N (only parsing).
Abbreviation str := (list N) (only parsing).

(** ** Exceptions

    The exceptions the program can raise.  [InvalidReference] has no Python
    counterpart: it is the outcome of following a reference that is not in
    the store, which no state built by the program contains. *)
Inductive exn :=
  | NotImplementedError (msg : str)
  | ValueError
  | KeyError (key : str)
  | IndexError
  | EOFError
  | RecursionError
  | InvalidReference.

Inductive result (A : Type) :=
  | Ok (a : A)
  | Raise (e : exn).
Arguments Ok {A} a.
Arguments Raise {A} e.

Module Py.

(** UTF-8 decoding, used only to write the literals of the source the way
    they stand in the source file. *)
Fixpoint utf8 (pending : nat) (acc : N) (bs : list N) : str :=
  match bs with
  | [] => []
  | b :: bs' =>
    match pending with
    | O =>
      if (b <? 0x80)%N then b :: utf8 0 0%N bs'
      else if (b <? 0xE0)%N then utf8 1 (b mod 0x20)%N bs'
      else if (b <? 0xF0)%N then utf8 2 (b mod 0x10)%N bs'
      else utf8 3 (b mod 0x08)%N bs'
    | S p =>
      let acc' := (acc * 0x40 + b mod 0x40)%N in
      match p with
      | O => acc' :: utf8 0 0%N bs'
      | S _ => utf8 p acc' bs'
      end
    end
  end.

Definition u (s : string) : str :=
  utf8 0 0%N (map Ascii.N_of_ascii (String.list_ascii_of_string s)).
Arguments u : simpl never.

Definition in_ranges (rs : list (N * N)) (c : char) : bool :=
  existsb (λ r, (fst r <=? c)%N && (c <=? snd r)%N) rs.

(** Code points for which [str.isspace] holds (Unicode 14.0). *)
Definition whitespace_ranges : list (N * N) :=
  [ (0x9, 0xd); (0x1c, 0x20); (0x85, 0x85); (0xa0, 0xa0); (0x1680, 0x1680);
    (0x2000, 0x200a); (0x2028, 0x2029); (0x202f, 0x202f); (0x205f, 0x205f);
    (0x3000, 0x3000) ]%N.

(** Code points with Numeric_Type=Decimal; every range is a run of the ten
    digits 0..9, the last one five such runs. *)
Definition decimal_ranges : list (N * N) :=
  [ (0x30, 0x39); (0x660, 0x669); (0x6f0, 0x6f9); (0x7c0, 0x7c9);
    (0x966, 0x96f); (0x9e6, 0x9ef); (0xa66, 0xa6f); (0xae6, 0xaef);
    (0xb66, 0xb6f); (0xbe6, 0xbef); (0xc66, 0xc6f); (0xce6, 0xcef);
    (0xd66, 0xd6f); (0xde6, 0xdef); (0xe50, 0xe59); (0xed0, 0xed9);
    (0xf20, 0xf29); (0x1040, 0x1049); (0x1090, 0x1099); (0x17e0, 0x17e9);
    (0x1810, 0x1819); (0x1946, 0x194f); (0x19d0, 0x19d9); (0x1a80, 0x1a89);
    (0x1a90, 0x1a99); (0x1b50, 0x1b59); (0x1bb0, 0x1bb9); (0x1c40, 0x1c49);
    (0x1c50, 0x1c59); (0xa620, 0xa629); (0xa8d0, 0xa8d9); (0xa900, 0xa909);
    (0xa9d0, 0xa9d9); (0xa9f0, 0xa9f9); (0xaa50, 0xaa59); (0xabf0, 0xabf9);
    (0xff10, 0xff19); (0x104a0, 0x104a9); (0x10d30, 0x10d39);
    (0x11066, 0x1106f); (0x110f0, 0x110f9); (0x11136, 0x1113f);
    (0x111d0, 0x111d9); (0x112f0, 0x112f9); (0x11450, 0x11459);
    (0x114d0, 0x114d9); (0x11650, 0x11659); (0x116c0, 0x116c9);
    (0x11730, 0x11739); (0x118e0, 0x118e9); (0x11950, 0x11959);
    (0x11c50, 0x11c59); (0x11d50, 0x11d59); (0x11da0, 0x11da9);
    (0x16a60, 0x16a69); (0x16ac0, 0x16ac9); (0x16b50, 0x16b59);
    (0x1d7ce, 0x1d7ff); (0x1e140, 0x1e149); (0x1e2f0, 0x1e2f9);
    (0x1e950, 0x1e959); (0x1fbf0, 0x1fbf9) ]%N.

(** Code points with Numeric_Type=Digit that are not Decimal: superscripts,
    subscripts, circled and parenthesized digits and the like. *)
Definition digit_only_ranges : list (N * N) :=
  [ (0xb2, 0xb3); (0xb9, 0xb9); (0x1369, 0x1371); (0x19da, 0x19da);
    (0x2070, 0x2070); (0x2074, 0x2079); (0x2080, 0x2089); (0x2460, 0x2468);
    (0x2474, 0x247c); (0x2488, 0x2490); (0x24ea, 0x24ea); (0x24f5, 0x24fd);
    (0x24ff, 0x24ff); (0x2776, 0x277e); (0x2780, 0x2788); (0x278a, 0x2792);
    (0x10a40, 0x10a43); (0x10e60, 0x10e68); (0x11052, 0x1105a);
    (0x1f100, 0x1f10a) ]%N.

Definition isspace_char (c : char) : bool := in_ranges whitespace_ranges c.
Definition isdecimal_char (c : char) : bool := in_ranges decimal_ranges c.
Definition isdigit_char (c : char) : bool :=
  isdecimal_char c || in_ranges digit_only_ranges c.

(** The decimal value of a code point, when it has one. *)
Definition decimal_value (c : char) : option N :=
  (λ r, ((c - fst r) mod 10)%N)
    <$> find (λ r, (fst r <=? c)%N && (c <=? snd r)%N) decimal_ranges.

Fixpoint lstrip_by (p : char → bool) (s : str) : str :=
  match s with
  | [] => []
  | c :: s' => if p c then lstrip_by p s' else s
  end.

Definition strip_by (p : char → bool) (s : str) : str :=
  reverse (lstrip_by p (reverse (lstrip_by p s))).

(** [s.strip()] *)
Definition strip (s : str) : str := strip_by isspace_char s.

(** [s.isdigit()] *)
Definition isdigit (s : str) : bool :=
  match s with
  | [] => false
  | _ => forallb isdigit_char s
  end.

(** [sys.get_int_max_str_digits()], the default of CPython 3.11. *)
Definition max_str_digits : nat := 4300.

(** The blanks [int] skips around a literal: the ASCII ones of the C
    locale and the whitespace code points above U+007F. *)
Definition int_space (c : char) : bool :=
  if (c <? 0x80)%N then (0x9 <=? c)%N && (c <=? 0xd)%N || (c =? 0x20)%N
  else isspace_char c.

(** The digits of a base-10 literal, single underscores allowed between
    them: the value read so far and the number of digits. *)
Fixpoint int_digits (after_underscore : bool) (acc : N) (count : nat) (s : str)
  : option (N * nat) :=
  match s with
  | [] => if after_underscore then None else Some (acc, count)
  | c :: s' =>
    if (c =? 0x5f)%N then
      if after_underscore then None else int_digits true acc count s'
    else
      match decimal_value c with
      | Some d => int_digits false (acc * 10 + d)%N (S count) s'
      | None => None
      end
  end.

(** [int(s)] for a string [s]. *)
Definition int (s : str) : result Z :=
  let t := strip_by int_space s in
  let '(negative, ds) :=
    match t with
    | c :: r =>
      if (c =? 0x2d)%N then (true, r)
      else if (c =? 0x2b)%N then (false, r)
      else (false, t)
    | [] => (false, [])
    end in
  match int_digits true 0%N 0%nat ds with
  | Some (n, count) =>
    if (max_str_digits <? count)%nat then Raise ValueError
    else Ok (if negative then - Z.of_N n else Z.of_N n)
  | None => Raise ValueError
  end.

(** The line feed, ["\n"]. *)
Definition nl : str := [0xa%N].

(** [" " * n]; a negative count gives the empty string. *)
Definition spaces (n : Z) : str := replicate (Z.to_nat n) 0x20%N.

(** [sep.join(lines)] *)
Definition join (sep : str) (lines : list str) : str :=
  match lines with
  | [] => []
  | l :: ls => l ++ concat (map (λ x, sep ++ x) ls)
  end.

(** [str(n)] for an integer, as an f-string formats it. *)
Definition str_of_int (n : Z) : str :=
  map Ascii.N_of_ascii (String.list_ascii_of_string (pretty n)).

(** Case mapping, restricted to Basic Latin and the Cyrillic block
    U+0400..U+045F: the scripts of every string the program capitalizes.
    Other code points are left as they are. *)
Definition upper_char (c : char) : char :=
  if (0x61 <=? c)%N && (c <=? 0x7a)%N then (c - 0x20)%N
  else if (0x430 <=? c)%N && (c <=? 0x44f)%N then (c - 0x20)%N
  else if (0x450 <=? c)%N && (c <=? 0x45f)%N then (c - 0x50)%N
  else c.

Definition lower_char (c : char) : char :=
  if (0x41 <=? c)%N && (c <=? 0x5a)%N then (c + 0x20)%N
  else if (0x410 <=? c)%N && (c <=? 0x42f)%N then (c + 0x20)%N
  else if (0x400 <=? c)%N && (c <=? 0x40f)%N then (c + 0x50)%N
  else c.

(** [s.capitalize()] *)
Definition capitalize (s : str) : str :=
  match s with
  | [] => []
  | c :: s' => upper_char c :: map lower_char s'
  end.

#[global] Arguments strip : simpl never.
#[global] Arguments isdigit : simpl never.
#[global] Arguments int : simpl never.
#[global] Arguments capitalize : simpl never.
#[global] Arguments str_of_int : simpl never.

End Py.

Import Py.

(** ** The store, the console and the monad of the program *)

(** A reference is the address of an object in the store. *)
Abbreviation ref := nat (only parsing).

(** The two concrete classes under [FleetComponent], with their
    attributes.  The children of a group are references: a component can
    be shared, and is compared by identity. *)
Inductive FleetComponent :=
  | FleetGroup (name : str) (_children : list ref)
  | Vehicle (name : str) (energy_source : str).

(** What the program writes: a [print] call (one line, the newline
    implied) or the prompt of an [input] call. *)
Inductive event :=
  | Print (line : str)
  | Prompt (prompt : str).

Record world := World {
  heap : list FleetComponent;
  stdin : list str;
  stdout : list event
}.

#[global] Instance result_ret : MRet result := λ A, Ok.
#[global] Instance result_bind : MBind result :=
  λ A B f r, match r with Ok a => f a | Raise e => Raise e end.

(** A computation runs on a world and returns a value or raises; the
    effects made before an exception stay. *)
Definition M (A : Type) : Type := world → result A * world.

#[global] Instance M_ret : MRet M := λ A a w, (Ok a, w).
#[global] Instance M_bind : MBind M :=
  λ A B f m w,
    match m w with
    | (Ok a, w') => f a w'
    | (Raise e, w') => (Raise e, w')
    end.

Definition raise {A} (e : exn) : M A := λ w, (Raise e, w).

Definition lift {A} (r : result A) : M A := λ w, (r, w).

(** [print(line)] *)
Definition print (line : str) : M unit :=
  λ w, (Ok tt, World (heap w) (stdin w) (stdout w ++ [Print line])).

(** [input(prompt)]: the prompt is written, then a line is read; at the
    end of the input [EOFError] is raised. *)
Definition input (prompt : str) : M str :=
  λ w,
    let out := stdout w ++ [Prompt prompt] in
    match stdin w with
    | [] => (Raise EOFError, World (heap w) [] out)
    | line :: rest => (Ok line, World (heap w) rest out)
    end.

(** Construction of an object: it gets the next free address. *)
Definition alloc (o : FleetComponent) : M ref :=
  λ w, (Ok (length (heap w)), World (heap w ++ [o]) (stdin w) (stdout w)).

Definition load (r : ref) : M FleetComponent :=
  λ w, match heap w !! r with
       | Some o => (Ok o, w)
       | None => (Raise InvalidReference, w)
       end.

Definition store (r : ref) (o : FleetComponent) : M unit :=
  λ w, (Ok tt, World (<[r := o]> (heap w)) (stdin w) (stdout w)).

(** The store as it is now, for the comparisons of [list.remove]. *)
Definition the_heap : M (list FleetComponent) := λ w, (Ok (heap w), w).

(** ** FleetComponent, FleetGroup, Vehicle *)

(** [FleetGroup(name)] *)
Definition FleetGroup__init__ (name : str) : M ref :=
  alloc (FleetGroup name []).

(** [self.add(component)].  [FleetGroup] overrides [add] and appends to
    [_children]; [Vehicle] inherits [FleetComponent.add], which raises. *)
Definition add (self component : ref) : M unit :=
  o ← load self;
  match o with
  | FleetGroup name _children =>
    store self (FleetGroup name (_children ++ [component]))
  | Vehicle _ _ =>
    raise (NotImplementedError (u "Cannot add child to a leaf component"))
  end.

(** [a == b] on components.  [FleetGroup] has no [__eq__]: identity.
    [Vehicle] is a dataclass: two vehicles are equal when their fields
    are. *)
Definition component_eq (h : list FleetComponent) (a b : ref) : bool :=
  bool_decide (a = b) ||
  match h !! a, h !! b with
  | Some (Vehicle n e), Some (Vehicle n' e') => bool_decide (n = n' ∧ e = e')
  | _, _ => false
  end.

(** [l.remove(x)]: the list without its first element equal to [x], or
    nothing when there is none. *)
Fixpoint list_remove (eqx : ref → bool) (l : list ref) : option (list ref) :=
  match l with
  | [] => None
  | y :: l' => if eqx y then Some l' else (y ::.) <$> list_remove eqx l'
  end.

(** [self.remove(component)].  [FleetGroup.remove] is [list.remove] on
    [_children], which raises [ValueError] when no child is equal to
    [component]; [Vehicle] inherits [FleetComponent.remove]. *)
Definition remove (self component : ref) : M unit :=
  o ← load self;
  match o with
  | FleetGroup name _children =>
    h ← the_heap;
    match list_remove (λ child, component_eq h child component) _children with
    | Some _children' => store self (FleetGroup name _children')
    | None => raise ValueError
    end
  | Vehicle _ _ =>
    raise (NotImplementedError (u "Cannot remove child from a leaf component"))
  end.

(** [self.display(indent)], on a store that it only reads.  [depth] is the
    number of nested calls the interpreter still allows; past it
    [RecursionError] is raised. *)
Fixpoint display (depth : nat) (h : list FleetComponent) (self : ref) (indent : Z)
  : result str :=
  match depth with
  | O => Raise RecursionError
  | S depth' =>
    match h !! self with
    | Some (FleetGroup name _children) =>
      lines ← mapM (λ child, display depth' h child (indent + 2)) _children;
      Ok (join nl ((spaces indent ++ name ++ u ":") :: lines))
    | Some (Vehicle name energy_source) =>
      Ok (spaces indent ++ name ++ u " (" ++ energy_source ++ u ")")
    | None => Raise InvalidReference
    end
  end.

(** [sys.getrecursionlimit()], the default of CPython. *)
Definition recursion_limit : nat := 1000.

(** ** FleetConsoleApp

    The application object is passed to its methods and returned by those
    that assign to [energy_groups]; after an exception nothing reads it
    any more. *)

Record FleetConsoleApp := App {
  root_group : ref;
  energy_groups : gmap str ref
}.

Definition FleetConsoleApp__init__ : M FleetConsoleApp :=
  root ← FleetGroup__init__ (u "Автопарк");
  mret (App root ∅).

(** The energy sources of the menu, in the order of the menu. *)
Definition sources : list str :=
  [ u "электричество"; u "бензин"; u "газ"; u "гибрид" ].

(** [l[i]] for a list [l] and an integer [i]. *)
Definition getitem {A} (l : list A) (i : Z) : result A :=
  let j := if i <? 0 then i + Z.of_nat (length l) else i in
  if j <? 0 then Raise IndexError
  else match l !! Z.to_nat j with
       | Some x => Ok x
       | None => Raise IndexError
       end.

Definition _ask_energy_source : M (option str) :=
  print (u "Выберите источник энергии:");;
  mapM (λ '(idx, source), print (str_of_int idx ++ u ". " ++ source))
       (zip (seqZ 1 (Z.of_nat (length sources))) sources);;
  line ← input (u "> ");
  let choice := strip line in
  if negb (isdigit choice) then
    print (u "Нужно ввести номер варианта.");;
    mret None
  else
    n ← lift (int choice);
    let index := n - 1 in
    if (index <? 0) || (index >=? Z.of_nat (length sources)) then
      print (u "Нет такого источника энергии.");;
      mret None
    else
      source ← lift (getitem sources index);
      mret (Some source).

Definition _get_or_create_energy_group (self : FleetConsoleApp) (energy_source : str)
  : M (FleetConsoleApp * ref) :=
  self ←
    match energy_groups self !! energy_source with
    | None =>
      group ← FleetGroup__init__ (capitalize energy_source);
      let self := App (root_group self) (<[energy_source := group]> (energy_groups self)) in
      add (root_group self) group;;
      mret self
    | Some _ => mret self
    end;
  match energy_groups self !! energy_source with
  | Some group => mret (self, group)
  | None => raise (KeyError energy_source)
  end.

(** Lines 89 and 90 of the source: what the specification calls
    [add_vehicle(name, energy_source)]. *)
Definition add_vehicle (self : FleetConsoleApp) (name energy_source : str)
  : M FleetConsoleApp :=
  '(self, group) ← _get_or_create_energy_group self energy_source;
  vehicle ← alloc (Vehicle name energy_source);
  add group vehicle;;
  mret self.

Definition _handle_add_vehicle (self : FleetConsoleApp) : M FleetConsoleApp :=
  line ← input (u "Введите название автобуса: ");
  let name := strip line in
  match name with
  | [] =>
    print (u "Название автобуса не может быть пустым.");;
    mret self
  | _ =>
    choice ← _ask_energy_source;
    match choice with
    | None => mret self
    | Some energy_source =>
      self ← add_vehicle self name energy_source;
      print (u "Автобус '" ++ name ++ u "' с источником энергии '"
               ++ energy_source ++ u "' добавлен в автопарк.");;
      mret self
    end
  end.

(** [self.root_group.display()] of line 72: what the specification calls
    [render()]. *)
Definition render (self : FleetConsoleApp) : M str :=
  λ w, (display recursion_limit (heap w) (root_group self) 0, w).

(** One turn of the [while True] loop of [run]: the application to go on
    with, or nothing after [break]. *)
Definition run_turn (self : FleetConsoleApp) : M (option FleetConsoleApp) :=
  print (nl ++ u "Выберите действие:");;
  print (u "1. Добавить автобус");;
  print (u "2. Показать структуру автопарка");;
  print (u "3. Выйти");;
  line ← input (u "> ");
  let choice := strip line in
  if decide (choice = u "1") then
    self ← _handle_add_vehicle self;
    mret (Some self)
  else if decide (choice = u "2") then
    text ← render self;
    print (nl ++ text);;
    mret (Some self)
  else if decide (choice = u "3") then
    print (u "До свидания!");;
    mret None
  else
    print (u "Неизвестная команда. Попробуйте снова.");;
    mret (Some self).

(** The loop, for at most [fuel] turns; [None] when the turns ran out. *)
Fixpoint run_loop (fuel : nat) (self : FleetConsoleApp) (w : world)
  : option (result unit * world) :=
  match fuel with
  | O => None
  | S fuel' =>
    match run_turn self w with
    | (Ok (Some self'), w') => run_loop fuel' self' w'
    | (Ok None, w') => Some (Ok tt, w')
    | (Raise e, w') => Some (Raise e, w')
    end
  end.

(** [self.run()].  Every turn that does not end the loop reads a line, so
    one turn more than there are lines is enough. *)
Definition run (self : FleetConsoleApp) (w : world) : option (result unit * world) :=
  match print (u "Добро пожаловать в систему управления автопарком!") w with
  | (Ok _, w') => run_loop (S (length (stdin w'))) self w'
  | (Raise e, w') => Some (Raise e, w')
  end.

(** [main()], on a console with the lines [lines] to read. *)
Definition main (lines : list str) : option (result unit * world) :=
  match FleetConsoleApp__init__ (World [] lines []) with
  | (Ok app, w) => run app w
  | (Raise e, w) => Some (Raise e, w)
  end.


(** ** Observations on the store, used to state the properties *)

(** The children of a group; a vehicle has none. *)
Definition children (h : list FleetComponent) (r : ref) : list ref :=
  match h !! r with
  | Some (FleetGroup _ cs) => cs
  | _ => []
  end.

(** The vehicles met when walking down from [r], in the order [display]
    visits them, at most [depth] levels deep. *)
Fixpoint leaves (depth : nat) (h : list FleetComponent) (r : ref) : list ref :=
  match depth with
  | O => []
  | S depth' =>
    match h !! r with
    | Some (FleetGroup _ cs) => concat (map (leaves depth' h) cs)
    | Some (Vehicle _ _) => [r]
    | None => []
    end
  end.

(** [r] is the root of a tree of at most [d] levels, all of whose
    references are in the store. *)
Fixpoint tree_within (h : list FleetComponent) (d : nat) (r : ref) : Prop :=
  match d with
  | O => False
  | S d' =>
    match h !! r with
    | Some (FleetGroup _ cs) => Forall (tree_within h d') cs
    | Some (Vehicle _ _) => True
    | None => False
    end
  end.

(** The prompts among the written events, in order. *)
Definition prompts (out : list event) : list str :=
  omap (λ e, match e with Prompt p => Some p | Print _ => None end) out.

(** A sequence of [add_vehicle] calls, given as (name, energy source). *)
Fixpoint add_vehicles (calls : list (str * str)) (self : FleetConsoleApp)
  : M FleetConsoleApp :=
  match calls with
  | [] => mret self
  | (name, energy_source) :: calls' =>
    self' ← add_vehicle self name energy_source;
    add_vehicles calls' self'
  end.

(** The two operations of the registry. *)
Inductive registry_op :=
  | AddVehicle (name energy_source : str)
  | Render.

Definition registry_step (self : FleetConsoleApp) (op : registry_op)
  : M FleetConsoleApp :=
  match op with
  | AddVehicle name energy_source => add_vehicle self name energy_source
  | Render => (render self;; mret self)
  end.

Fixpoint registry_steps (ops : list registry_op) (self : FleetConsoleApp)
  : M FleetConsoleApp :=
  match ops with
  | [] => mret self
  | op :: ops' => self' ← registry_step self op; registry_steps ops' self'
  end.

(** The shape of every store the registry builds: the root group holds
    the groups of [energy_groups], one per energy source, and each of them
    holds vehicles of that energy source. *)
Record registry_inv (self : FleetConsoleApp) (h : list FleetComponent) : Prop := {
  inv_root :
    ∃ groups,
      h !! root_group self = Some (FleetGroup (u "Автопарк") groups) ∧
      NoDup groups ∧
      (root_group self ∉ groups) ∧
      (∀ g, g ∈ groups ↔ ∃ tag, energy_groups self !! tag = Some g);
  inv_inj :
    ∀ tag tag' g,
      energy_groups self !! tag = Some g →
      energy_groups self !! tag' = Some g → tag = tag';
  inv_group :
    ∀ tag g,
      energy_groups self !! tag = Some g →
      ∃ cs, h !! g = Some (FleetGroup (capitalize tag) cs) ∧
            Forall (λ c, ∃ name, h !! c = Some (Vehicle name tag)) cs
}.

(** What one [add_vehicle name tag] call does to a registry [self] on a
    store [h]: [v] is the vehicle it creates and [g] the group of [tag]. *)
Record add_vehicle_post (self : FleetConsoleApp) (h : list FleetComponent)
    (name tag : str) (self' : FleetConsoleApp) (h' : list FleetComponent)
    (v g : ref) : Prop := {
  post_inv : registry_inv self' h';
  post_root : root_group self' = root_group self;
  post_fresh : h !! v = None;
  post_leaf : h' !! v = Some (Vehicle name tag);
  post_vehicles :
    ∀ i n e, h !! i = Some (Vehicle n e) → h' !! i = Some (Vehicle n e);
  post_only :
    ∀ i n e, h' !! i = Some (Vehicle n e) → i = v ∨ h !! i = Some (Vehicle n e);
  post_groups :
    ∀ i n cs, h !! i = Some (FleetGroup n cs) →
              ∃ extra, h' !! i = Some (FleetGroup n (cs ++ extra));
  post_group : energy_groups self' !! tag = Some g;
  post_new_group : energy_groups self !! tag = None → h !! g = None;
  post_appended : children h' g = children h g ++ [v];
  post_mono :
    ∀ tag' g', energy_groups self !! tag' = Some g' →
               energy_groups self' !! tag' = Some g';
  post_others :
    ∀ tag' g', energy_groups self' !! tag' = Some g' → tag' ≠ tag →
               energy_groups self !! tag' = Some g' ∧
               children h' g' = children h g';
  post_leaves :
    ∀ d, leaves (3 + d) h' (root_group self)
           ≡ₚ leaves (3 + d) h (root_group self) ++ [v]
}.

(** The registry [self] on the store [h] is what the calls [done] built,
    [vs] being the vehicles they created, in the order of the calls. *)
Record built_by (done : list (str * str)) (vs : list ref)
    (self : FleetConsoleApp) (h : list FleetComponent) : Prop := {
  built_inv : registry_inv self h;
  built_vehicles : Forall2 (λ v c, h !! v = Some (Vehicle c.1 c.2)) vs done;
  built_distinct : NoDup vs;
  built_leaves : ∀ d, leaves (3 + d) h (root_group self) ≡ₚ vs;
  built_tags : ∀ c, c ∈ done → is_Some (energy_groups self !! c.2);
  built_children :
    ∀ tag g, energy_groups self !! tag = Some g →
             children h g = (filter (λ p, p.2.2 = tag) (zip vs done)).*1
}.

(** What [_ask_energy_source] writes before it reads the choice. *)
Definition ask_menu : list event :=
  [ Print (u "Выберите источник энергии:");
    Print (u "1. электричество");
    Print (u "2. бензин");
    Print (u "3. газ");
    Print (u "4. гибрид");
    Prompt (u "> ") ].

(** What a turn of [run] writes before it reads the command. *)
Definition main_menu : list event :=
  [ Print (nl ++ u "Выберите действие:");
    Print (u "1. Добавить автобус");
    Print (u "2. Показать структуру автопарка");
    Print (u "3. Выйти");
    Prompt (u "> ") ].

Definition name_prompt : str := u "Введите название автобуса: ".

(** The line [_handle_add_vehicle] prints after a vehicle is added. *)
Definition confirmation (name energy_source : str) : str :=
  u "Автобус '" ++ name ++ u "' с источником энергии '"
    ++ energy_source ++ u "' добавлен в автопарк.".

(** The tags of the specification text, for comparison with [sources]. *)
Definition spec_tags : list str :=
  [ u "electricity"; u "gasoline"; u "gas"; u "hybrid" ].

(** Every reference held by a group of the store is in the store, as in
    every store of a Python program. *)
Definition heap_closed (h : list FleetComponent) : Prop :=
  ∀ r name cs, h !! r = Some (FleetGroup name cs) →
               Forall (λ c, (c < length h)%nat) cs.

(** The distinct elements of a list, in the order of their first
    occurrence. *)
Definition first_seen (tags : list str) : list str :=
  foldl (λ seen tag, if decide (tag ∈ seen) then seen else seen ++ [tag]) [] tags.

(** The text of the fleet that the calls [calls] of [add_vehicle] built:
    the root line, then for each energy source in the order of its first
    use the line of its group and the lines of its vehicles in the order
    of the calls. *)
Definition group_text (calls : list (str * str)) (tag : str) : str :=
  join nl ((spaces 2 ++ capitalize tag ++ u ":")
             :: map (λ c, spaces 4 ++ c.1 ++ u " (" ++ c.2 ++ u ")")
                    (filter (λ c, c.2 = tag) calls)).

Definition fleet_text (calls : list (str * str)) : str :=
  join nl ((spaces 0 ++ u "Автопарк" ++ u ":")
             :: map (group_text calls) (first_seen (calls.*2))).


(** What holds of the registry and the store whatever was typed: the
    registry is well formed, its keys are energy sources of the menu, and
    every vehicle has a name that is not empty, with no whitespace at its
    ends, and an energy source of the menu. *)
Record store_ok (self : FleetConsoleApp) (h : list FleetComponent) : Prop := {
  ok_inv : registry_inv self h;
  ok_keys : ∀ tag g, energy_groups self !! tag = Some g → tag ∈ sources;
  ok_vehicles :
    ∀ i name tag, h !! i = Some (Vehicle name tag) →
                  name ≠ [] ∧ strip name = name ∧ tag ∈ sources
}.

(** How [run] can end: normally after the farewell line; by [EOFError]
    with all the input read and a prompt written last; by [ValueError]
    with the prompt of the energy source menu written last. *)
Definition run_outcome (r : result unit) (w : world) : Prop :=
  match r with
  | Ok _ => last (stdout w) = Some (Print (u "До свидания!"))
  | Raise e =>
    (e = EOFError ∧ stdin w = [] ∧ ∃ p, last (stdout w) = Some (Prompt p)) ∨
    (e = ValueError ∧ last (stdout w) = Some (Prompt (u "> ")))
  end.

(** ** The monad *)

Lemma bind_eq {A B} (m : M A) (k : A → M B) (w : world) :
  (m ≫= k) w =
  match m w with
  | (Ok a, w') => k a w'
  | (Raise e, w') => (Raise e, w')
  end.
Proof. reflexivity. Qed.

Lemma bind_Ok {A B} (m : M A) (k : A → M B) (w w' : world) (a : A) :
  m w = (Ok a, w') → (m ≫= k) w = k a w'.
Proof. intros E. rewrite bind_eq, E. reflexivity. Qed.

Lemma bind_Raise {A B} (m : M A) (k : A → M B) (w w' : world) (e : exn) :
  m w = (Raise e, w') → (m ≫= k) w = (Raise e, w').
Proof. intros E. rewrite bind_eq, E. reflexivity. Qed.

Lemma load_Some (w : world) (r : ref) (o : FleetComponent) :
  heap w !! r = Some o → load r w = (Ok o, w).
Proof. intros E. unfold load. rewrite E. reflexivity. Qed.

(** ** Vehicle: [add] and [remove] *)

(** C6.  On a vehicle, [add] and [remove] raise [NotImplementedError]
    (the UnsupportedOperation of the specification) whatever the argument;
    nothing is changed, and the exception passes through whatever the
    caller had planned to do next. *)
Theorem vehicle_add_remove_raise
    (w : world) (self component : ref) (name energy_source : str) :
  heap w !! self = Some (Vehicle name energy_source) →
  add self component w
    = (Raise (NotImplementedError (u "Cannot add child to a leaf component")), w) ∧
  remove self component w
    = (Raise (NotImplementedError (u "Cannot remove child from a leaf component")), w) ∧
  (∀ B (k : unit → M B),
     (add self component ≫= k) w
       = (Raise (NotImplementedError (u "Cannot add child to a leaf component")), w) ∧
     (remove self component ≫= k) w
       = (Raise (NotImplementedError (u "Cannot remove child from a leaf component")), w)).
Proof.
  intros Hself.
  assert (Ha : add self component w
    = (Raise (NotImplementedError (u "Cannot add child to a leaf component")), w)).
  { unfold add. rewrite (bind_Ok _ _ _ _ _ (load_Some _ _ _ Hself)). reflexivity. }
  assert (Hr : remove self component w
    = (Raise (NotImplementedError (u "Cannot remove child from a leaf component")), w)).
  { unfold remove. rewrite (bind_Ok _ _ _ _ _ (load_Some _ _ _ Hself)). reflexivity. }
  split; [exact Ha|]. split; [exact Hr|].
  intros B k. split.
  - apply bind_Raise, Ha.
  - apply bind_Raise, Hr.
Qed.

Lemma vehicle_add_remove_raise_witness :
  let w := World [FleetGroup (u "Fleet") [1%nat]; Vehicle (u "Bus-1") (u "газ")] [] [] in
  add 1%nat 0%nat w
    = (Raise (NotImplementedError (u "Cannot add child to a leaf component")), w).
Proof.
  intros w.
  exact (proj1 (vehicle_add_remove_raise w 1%nat 0%nat (u "Bus-1") (u "газ") eq_refl)).
Defined.

(** ** display *)

Lemma mapM_result_Ok {A B} (f : A → result B) (l : list A) (ys : list B) :
  mapM f l = Ok ys ↔ Forall2 (λ x y, f x = Ok y) l ys.
Proof.
  revert ys. induction l as [|x l IH]; intros ys; simpl.
  - split.
    + intros [= <-]. constructor.
    + intros H. inversion H. reflexivity.
  - unfold mbind, result_bind, mret, result_ret.
    destruct (f x) as [y|e] eqn:Ex.
    + destruct (mapM f l) as [k|e] eqn:Ek.
      * split.
        -- intros [= <-]. constructor; [exact Ex|]. apply IH. reflexivity.
        -- intros H. inversion H as [|? y' ? k' Hy Hk]; subst.
           apply IH in Hk. congruence.
      * split; [discriminate|].
        intros H. inversion H as [|? y' ? k' Hy Hk]; subst.
        apply IH in Hk. discriminate.
    + split; [discriminate|].
      intros H. inversion H; congruence.
Qed.

Lemma display_group (h : list FleetComponent) (depth : nat) (self : ref)
    (indent : Z) (name : str) (cs : list ref) :
  h !! self = Some (FleetGroup name cs) →
  display (S depth) h self indent =
    (lines ← mapM (λ child, display depth h child (indent + 2)) cs;
     Ok (join nl ((spaces indent ++ name ++ u ":") :: lines))).
Proof. intros E. simpl. rewrite E. reflexivity. Qed.

Lemma display_vehicle (h : list FleetComponent) (depth : nat) (self : ref)
    (indent : Z) (name energy_source : str) :
  h !! self = Some (Vehicle name energy_source) →
  display (S depth) h self indent =
    Ok (spaces indent ++ name ++ u " (" ++ energy_source ++ u ")").
Proof. intros E. simpl. rewrite E. reflexivity. Qed.

Lemma display_group_Ok (h : list FleetComponent) (depth : nat) (self : ref)
    (indent : Z) (name : str) (cs : list ref) (text : str) :
  h !! self = Some (FleetGroup name cs) →
  display (S depth) h self indent = Ok text ↔
  ∃ lines,
    Forall2 (λ child line, display depth h child (indent + 2) = Ok line) cs lines ∧
    text = join nl ((spaces indent ++ name ++ u ":") :: lines).
Proof.
  intros E. rewrite (display_group _ _ _ _ _ _ E).
  destruct (mapM _ cs) as [lines|e] eqn:Em; unfold mbind, result_bind.
  - apply mapM_result_Ok in Em. split.
    + intros [= <-]. eauto.
    + intros (lines' & H2 & ->).
      apply mapM_result_Ok in Em, H2. rewrite Em in H2.
      injection H2 as <-. reflexivity.
  - split; [discriminate|].
    intros (lines' & H2 & _). apply mapM_result_Ok in H2.
    rewrite Em in H2. discriminate.
Qed.

Lemma spaces_length (indent : Z) :
  0 ≤ indent → Z.of_nat (length (spaces indent)) = indent.
Proof. intros H. unfold spaces. rewrite length_replicate. lia. Qed.

Lemma spaces_all (indent : Z) : Forall (λ c, c = 0x20%N) (spaces indent).
Proof. unfold spaces. apply Forall_replicate. reflexivity. Qed.

(** C2.  For a non-negative [indent], [display] of a group is [indent]
    spaces, the name and a colon, then for each child in the order of
    [_children] a line feed and the child's [display] at [indent + 2];
    [display] of a vehicle is [indent] spaces and "name (energy_source)",
    ending in the closing parenthesis and so with no trailing line feed. *)
Theorem display_spec (h : list FleetComponent) (depth : nat) (self : ref) (indent : Z) :
  0 ≤ indent →
  ∃ pad : str,
    Z.of_nat (length pad) = indent ∧
    Forall (λ c, c = 0x20%N) pad ∧
    (∀ name cs lines,
       h !! self = Some (FleetGroup name cs) →
       Forall2 (λ child line, display depth h child (indent + 2) = Ok line) cs lines →
       display (S depth) h self indent
         = Ok ((pad ++ name ++ u ":") ++ concat (map (λ line, nl ++ line) lines))) ∧
    (∀ name cs text,
       h !! self = Some (FleetGroup name cs) →
       display (S depth) h self indent = Ok text →
       ∃ lines,
         Forall2 (λ child line, display depth h child (indent + 2) = Ok line) cs lines ∧
         text = (pad ++ name ++ u ":") ++ concat (map (λ line, nl ++ line) lines)) ∧
    (∀ name energy_source,
       h !! self = Some (Vehicle name energy_source) →
       display (S depth) h self indent
         = Ok (pad ++ name ++ u " (" ++ energy_source ++ u ")") ∧
       last (pad ++ name ++ u " (" ++ energy_source ++ u ")") = Some 0x29%N).
Proof.
  intros Hindent. exists (spaces indent).
  split; [apply spaces_length, Hindent|].
  split; [apply spaces_all|].
  split; [|split].
  - intros name cs lines E H2.
    apply (display_group_Ok _ _ _ _ _ _ _ E). eauto.
  - intros name cs text E Ht.
    apply (display_group_Ok _ _ _ _ _ _ _ E) in Ht. exact Ht.
  - intros name energy_source E. split.
    + apply display_vehicle, E.
    + rewrite !app_assoc. apply last_snoc.
Qed.

Lemma display_spec_witness :
  let h := [FleetGroup (u "Газ") [1%nat; 2%nat];
            Vehicle (u "Bus-1") (u "газ"); Vehicle (u "Bus-2") (u "газ")] in
  display 2 h 0%nat 2 = Ok (u "  Газ:" ++ nl ++ u "    Bus-1 (газ)" ++ nl ++ u "    Bus-2 (газ)").
Proof.
  intros h.
  destruct (display_spec h 1 0%nat 2 ltac:(lia)) as (pad & Hlen & Hpad & Hgroup & _).
  rewrite (Hgroup (u "Газ") [1%nat; 2%nat] [u "    Bus-1 (газ)"; u "    Bus-2 (газ)"]
             eq_refl ltac:(repeat constructor)).
  destruct pad as [|c1 [|c2 [|c3 pad]]]; simpl length in Hlen; try lia.
  inversion Hpad as [|? ? -> Hpad']. inversion Hpad' as [|? ? -> _].
  reflexivity.
Defined.

Lemma display_last (h : list FleetComponent) (depth : nat) :
  ∀ (self : ref) (indent : Z) (text : str),
    display depth h self indent = Ok text →
    last text = Some 0x3a%N ∨ last text = Some 0x29%N.
Proof.
  induction depth as [|depth IH]; intros self indent text Ht; [discriminate|].
  destruct (h !! self) as [[name cs|name energy_source]|] eqn:E.
  - apply (display_group_Ok _ _ _ _ _ _ _ E) in Ht.
    destruct Ht as (lines & H2 & Ht). subst text. unfold join.
    destruct lines as [|l lines _] using rev_ind.
    + left. simpl. rewrite app_nil_r, !app_assoc. apply last_snoc.
    + apply Forall2_app_inv_r in H2 as (cs1 & cs2 & _ & H2 & _).
      inversion H2 as [|c ? ? ? Hl _]; subst.
      apply IH in Hl.
      rewrite map_app, concat_app. simpl. rewrite app_nil_r.
      destruct l as [|a l _] using rev_ind.
      * destruct Hl; discriminate.
      * rewrite app_comm_cons, !app_assoc, last_snoc.
        rewrite last_snoc in Hl. exact Hl.
  - rewrite (display_vehicle _ _ _ _ _ _ E) in Ht.
    assert (text = spaces indent ++ name ++ u " (" ++ energy_source ++ u ")")
      as -> by congruence.
    right. rewrite !app_assoc. apply last_snoc.
  - simpl in Ht. rewrite E in Ht. discriminate.
Qed.

Lemma display_total (h : list FleetComponent) (depth : nat) :
  ∀ (self : ref) (indent : Z),
    tree_within h depth self → ∃ text, display depth h self indent = Ok text.
Proof.
  induction depth as [|depth IH]; intros self indent Ht; [destruct Ht|].
  simpl in Ht.
  destruct (h !! self) as [[name cs|name energy_source]|] eqn:E; [| |destruct Ht].
  - assert (∃ lines,
      Forall2 (λ child line, display depth h child (indent + 2) = Ok line) cs lines)
      as [lines H2].
    { clear E. induction Ht as [|c cs Hc Hcs IHcs].
      - exists []. constructor.
      - destruct (IH c (indent + 2) Hc) as [l Hl]. destruct IHcs as [ls Hls].
        exists (l :: ls). constructor; assumption. }
    eexists. apply (display_group_Ok _ _ _ _ _ _ _ E). eauto.
  - eexists. apply display_vehicle, E.
Qed.

(** C10.  The text [display] returns for a group never ends in a line
    feed: its last character is the colon of a group line or the closing
    parenthesis of a vehicle line.  A group without children is displayed
    as its one line, [indent] spaces, the name and a colon; a group whose
    tree is within the depth available does get a text. *)
Theorem display_no_trailing_newline
    (h : list FleetComponent) (depth : nat) (self : ref) (indent : Z)
    (name : str) (cs : list ref) :
  0 ≤ indent →
  h !! self = Some (FleetGroup name cs) →
  (∀ text, display depth h self indent = Ok text → last text ≠ Some 0xa%N) ∧
  (tree_within h depth self →
     ∃ text, display depth h self indent = Ok text ∧ last text ≠ Some 0xa%N) ∧
  (cs = [] →
     display (S depth) h self indent
       = Ok (replicate (Z.to_nat indent) 0x20%N ++ name ++ u ":")).
Proof.
  intros _ E.
  assert (Hlast : ∀ text, display depth h self indent = Ok text →
                          last text ≠ Some 0xa%N).
  { intros text Ht. destruct (display_last _ _ _ _ _ Ht) as [-> | ->]; discriminate. }
  split; [exact Hlast|]. split.
  - intros Ht. destruct (display_total _ _ _ indent Ht) as [text Htext].
    exists text. split; [exact Htext|]. apply Hlast, Htext.
  - intros ->. rewrite (display_group _ _ _ _ _ _ E). simpl.
    rewrite app_nil_r. reflexivity.
Qed.

Lemma display_no_trailing_newline_witness :
  match FleetConsoleApp__init__ (World [] [] []) with
  | (Ok app, w) =>
    display recursion_limit (heap w) (root_group app) 0 = Ok (u "Автопарк:")
  | (Raise _, _) => False
  end.
Proof.
  simpl.
  exact (proj2 (proj2 (display_no_trailing_newline
           [FleetGroup (u "Автопарк") []] 999 0%nat 0 (u "Автопарк") []
           ltac:(lia) eq_refl)) eq_refl).
Defined.

(** ** FleetGroup: [remove] *)

Lemma list_remove_None (eqx : ref → bool) (l : list ref) :
  list_remove eqx l = None ↔ Forall (λ c, eqx c = false) l.
Proof.
  induction l as [|y l IH]; simpl.
  - split; [constructor|reflexivity].
  - destruct (eqx y) eqn:Ey.
    + split; [discriminate|]. intros H. inversion H; congruence.
    + destruct (list_remove eqx l) as [l'|]; simpl.
      * split; [discriminate|]. intros H. inversion H as [|? ? _ Hl]; subst.
        apply IH in Hl. discriminate.
      * split; [|reflexivity]. intros _. constructor; [exact Ey|]. now apply IH.
Qed.

Lemma list_remove_first (eqx : ref → bool) (pre post : list ref) (c : ref) :
  Forall (λ c, eqx c = false) pre → eqx c = true →
  list_remove eqx (pre ++ c :: post) = Some (pre ++ post).
Proof.
  intros Hpre Hc. induction Hpre as [|y pre Hy _ IH]; simpl.
  - rewrite Hc. reflexivity.
  - rewrite Hy, IH. reflexivity.
Qed.

Lemma list_remove_Some (eqx : ref → bool) (l l' : list ref) :
  list_remove eqx l = Some l' →
  ∃ pre c post,
    l = pre ++ c :: post ∧ Forall (λ c, eqx c = false) pre ∧
    eqx c = true ∧ l' = pre ++ post.
Proof.
  revert l'. induction l as [|y l IH]; intros l'; simpl; [discriminate|].
  destruct (eqx y) eqn:Ey.
  - intros [= <-]. exists [], y, l. repeat split; [constructor|exact Ey].
  - destruct (list_remove eqx l) as [l''|]; simpl; [|discriminate].
    intros [= <-]. destruct (IH l'' eq_refl) as (pre & c & post & -> & Hpre & Hc & ->).
    exists (y :: pre), c, post. repeat split; [constructor; assumption|exact Hc].
Qed.

Lemma remove_group (w : world) (self component : ref) (name : str) (cs : list ref) :
  heap w !! self = Some (FleetGroup name cs) →
  remove self component w =
    match list_remove (λ child, component_eq (heap w) child component) cs with
    | Some cs' =>
      (Ok tt, World (<[self := FleetGroup name cs']> (heap w)) (stdin w) (stdout w))
    | None => (Raise ValueError, w)
    end.
Proof.
  intros E. unfold remove.
  rewrite (bind_Ok _ _ _ _ _ (load_Some _ _ _ E)).
  rewrite bind_eq. unfold the_heap.
  destruct (list_remove _ cs); reflexivity.
Qed.

(** C7.  On a group, [remove] raises [ValueError] (the NotFound of the
    specification) exactly when no child is equal to the argument, and
    then changes nothing.  Otherwise it takes out the first child equal to
    the argument and no other: the number of occurrences of that child
    goes down by one, those of the others stay, and [display] then lists
    one line less, for the children that remain. *)
Theorem group_remove_spec
    (w : world) (self component : ref) (name : str) (cs : list ref) :
  heap w !! self = Some (FleetGroup name cs) →
  let matches := λ child, component_eq (heap w) child component in
  ((remove self component w).1 = Raise ValueError
     ↔ Forall (λ c, matches c = false) cs) ∧
  (Forall (λ c, matches c = false) cs →
     remove self component w = (Raise ValueError, w)) ∧
  (∀ pre c post,
     cs = pre ++ c :: post →
     Forall (λ c, matches c = false) pre →
     matches c = true →
     let w' := World (<[self := FleetGroup name (pre ++ post)]> (heap w))
                     (stdin w) (stdout w) in
     remove self component w = (Ok tt, w') ∧
     (∀ x : ref,
        length (filter (λ y, y = x) (pre ++ post))
          = (length (filter (λ y, y = x) cs) - (if decide (c = x) then 1 else 0))%nat) ∧
     (∀ depth indent lines,
        Forall2 (λ child line, display depth (heap w') child (indent + 2) = Ok line)
                (pre ++ post) lines →
        display (S depth) (heap w') self indent
          = Ok (join nl ((spaces indent ++ name ++ u ":") :: lines)) ∧
        S (length lines) = length cs)).
Proof.
  intros E matches. rewrite (remove_group _ _ _ _ _ E). fold matches.
  split; [|split].
  - destruct (list_remove matches cs) as [cs'|] eqn:Er; simpl.
    + split; [discriminate|]. intros H. apply list_remove_None in H. congruence.
    + split; [|reflexivity]. intros _. now apply list_remove_None.
  - intros H. apply list_remove_None in H. rewrite H. reflexivity.
  - intros pre c post -> Hpre Hc w'.
    rewrite (list_remove_first _ _ _ _ Hpre Hc).
    split; [reflexivity|]. split.
    + intros x. rewrite !filter_app, filter_cons, !length_app.
      destruct (decide (c = x)) as [->|Hne]; simpl; lia.
    + intros depth indent lines H2.
      assert (E' : heap w' !! self = Some (FleetGroup name (pre ++ post))).
      { simpl. apply list_lookup_insert_eq. eapply lookup_lt_Some, E. }
      split.
      * apply (display_group_Ok _ _ _ _ _ _ _ E'). eauto.
      * apply Forall2_length in H2. rewrite <- H2, !length_app. simpl. lia.
Qed.

Lemma group_remove_spec_witness :
  let h := [FleetGroup (u "Газ") [1%nat; 2%nat; 1%nat];
            Vehicle (u "Bus-1") (u "газ"); Vehicle (u "Bus-2") (u "газ")] in
  remove 0%nat 1%nat (World h [] [])
    = (Ok tt, World [FleetGroup (u "Газ") [2%nat; 1%nat];
                     Vehicle (u "Bus-1") (u "газ"); Vehicle (u "Bus-2") (u "газ")] [] []) ∧
  remove 0%nat 0%nat (World h [] []) = (Raise ValueError, World h [] []).
Proof.
  intros h. split.
  - exact (proj1 (proj2 (proj2 (group_remove_spec (World h [] []) 0%nat 1%nat
             (u "Газ") [1%nat; 2%nat; 1%nat] eq_refl))
             [] 1%nat [2%nat; 1%nat] eq_refl (Forall_nil_2 _) eq_refl)).
  - apply (proj1 (proj2 (group_remove_spec (World h [] []) 0%nat 0%nat
             (u "Газ") [1%nat; 2%nat; 1%nat] eq_refl))).
    repeat constructor.
Defined.

(** ** The interaction loop *)

Lemma mapM_events {A B} (f : A → M B) (g : A → event) (l : list A) :
  (∀ x w, ∃ y, f x w = (Ok y, World (heap w) (stdin w) (stdout w ++ [g x]))) →
  ∀ w, ∃ ys, mapM f l w = (Ok ys, World (heap w) (stdin w) (stdout w ++ map g l)).
Proof.
  intros Hf. induction l as [|x l IH]; intros w.
  - exists []. simpl. rewrite app_nil_r. destruct w; reflexivity.
  - destruct (Hf x w) as [y Hy].
    destruct (IH (World (heap w) (stdin w) (stdout w ++ [g x]))) as [ys Hys].
    exists (y :: ys).
    change (mapM f (x :: l)) with (y ← f x; k ← mapM f l; mret (y :: k)).
    rewrite (bind_Ok _ _ _ _ _ Hy), (bind_Ok _ _ _ _ _ Hys).
    simpl. rewrite <- app_assoc. reflexivity.
Qed.

Lemma menu_lines :
  map (λ p : Z * str, Print (str_of_int p.1 ++ u ". " ++ p.2))
      (zip (seqZ 1 (Z.of_nat (length sources))) sources)
  = [ Print (u "1. электричество"); Print (u "2. бензин");
      Print (u "3. газ"); Print (u "4. гибрид") ].
Proof. vm_compute. reflexivity. Qed.

Lemma getitem_sources (n : Z) :
  1 ≤ n ≤ 4 →
  ∃ source, sources !! Z.to_nat (n - 1) = Some source ∧
            getitem sources (n - 1) = Ok source.
Proof.
  intros Hn.
  assert (n = 1 ∨ n = 2 ∨ n = 3 ∨ n = 4) as [-> | [-> | [-> | ->]]] by lia;
    eexists; split; reflexivity.
Qed.

(** [_ask_energy_source], case by case. *)
Lemma ask_energy_source_run (w : world) :
  _ask_energy_source w =
    let out := stdout w ++ ask_menu in
    match stdin w with
    | [] => (Raise EOFError, World (heap w) [] out)
    | line :: rest =>
      if isdigit (strip line) then
        match int (strip line) with
        | Ok n =>
          if (1 <=? n) && (n <=? 4) then
            match sources !! Z.to_nat (n - 1) with
            | Some source => (Ok (Some source), World (heap w) rest out)
            | None => (Raise IndexError, World (heap w) rest out)
            end
          else
            (Ok None,
             World (heap w) rest (out ++ [Print (u "Нет такого источника энергии.")]))
        | Raise e => (Raise e, World (heap w) rest out)
        end
      else
        (Ok None,
         World (heap w) rest (out ++ [Print (u "Нужно ввести номер варианта.")]))
    end.
Proof.
  unfold _ask_energy_source, ask_menu. cbv zeta.
  rewrite bind_eq. unfold print at 1.
  set (w1 := World (heap w) (stdin w) (stdout w ++ [Print (u "Выберите источник энергии:")])).
  destruct (mapM_events
    (λ '(idx, source), print (str_of_int idx ++ u ". " ++ source))
    (λ p : Z * str, Print (str_of_int p.1 ++ u ". " ++ p.2))
    (zip (seqZ 1 (Z.of_nat (length sources))) sources)
    ltac:(intros [idx source] w0; exists tt; reflexivity) w1) as [us Hus].
  rewrite (bind_Ok _ _ _ _ _ Hus), menu_lines. clear Hus us.
  subst w1. cbn [heap stdin stdout map].
  rewrite bind_eq. unfold input at 1. cbn [heap stdin stdout].
  rewrite <- !app_assoc. cbn [app].
  destruct (stdin w) as [|line rest]; [reflexivity|].
  destruct (isdigit (strip line)); cbn [negb].
  - rewrite bind_eq. unfold lift at 1.
    destruct (int (strip line)) as [n|e]; [|reflexivity].
    change (Z.of_nat (length sources)) with 4. rewrite Z.geb_leb.
    destruct (1 <=? n) eqn:E1; destruct (n <=? 4) eqn:E4; cbn [andb];
      [ | | | ].
    + assert (Hn : 1 ≤ n ≤ 4) by lia.
      replace (n - 1 <? 0) with false by lia.
      replace (4 <=? n - 1) with false by lia.
      cbn [orb]. rewrite bind_eq. unfold lift at 1.
      destruct (getitem_sources n Hn) as (source & -> & ->). reflexivity.
    + replace (4 <=? n - 1) with true by lia.
      rewrite orb_true_r. rewrite bind_eq. unfold print at 1. cbn [heap stdin stdout].
      rewrite <- app_assoc. reflexivity.
    + replace (n - 1 <? 0) with true by lia.
      cbn [orb]. rewrite bind_eq. unfold print at 1. cbn [heap stdin stdout].
      rewrite <- app_assoc. reflexivity.
    + lia.
  - rewrite bind_eq. unfold print at 1. cbn [heap stdin stdout].
    rewrite <- app_assoc. reflexivity.
Qed.

(** ** The registry: [_get_or_create_energy_group] and [add_vehicle] *)

Lemma add_group (w : world) (self component : ref) (name : str) (cs : list ref) :
  heap w !! self = Some (FleetGroup name cs) →
  add self component w =
    (Ok tt, World (<[self := FleetGroup name (cs ++ [component])]> (heap w))
                  (stdin w) (stdout w)).
Proof.
  intros E. unfold add.
  rewrite (bind_Ok _ _ _ _ _ (load_Some _ _ _ E)). reflexivity.
Qed.

Lemma get_group_present (self : FleetConsoleApp) (tag : str) (g : ref) (w : world) :
  energy_groups self !! tag = Some g →
  _get_or_create_energy_group self tag w = (Ok (self, g), w).
Proof.
  intros E. unfold _get_or_create_energy_group.
  rewrite E. rewrite bind_eq. unfold mret at 1, M_ret at 1.
  rewrite E. reflexivity.
Qed.

Lemma get_group_absent (self : FleetConsoleApp) (tag rname : str)
    (groups : list ref) (w : world) :
  energy_groups self !! tag = None →
  heap w !! root_group self = Some (FleetGroup rname groups) →
  _get_or_create_energy_group self tag w =
    (Ok (App (root_group self) (<[tag := length (heap w)]> (energy_groups self)),
         length (heap w)),
     World (<[root_group self := FleetGroup rname (groups ++ [length (heap w)])]>
              (heap w ++ [FleetGroup (capitalize tag) []]))
           (stdin w) (stdout w)).
Proof.
  intros E Hroot. unfold _get_or_create_energy_group.
  rewrite E. rewrite bind_eq.
  rewrite bind_eq. unfold FleetGroup__init__, alloc at 1.
  cbn [root_group energy_groups].
  rewrite bind_eq.
  erewrite add_group by (cbn [heap]; apply lookup_app_l_Some, Hroot).
  cbn [heap stdin stdout]. unfold mret at 1, M_ret at 1.
  cbn [root_group energy_groups].
  rewrite lookup_insert_eq. reflexivity.
Qed.

Lemma add_vehicle_present (self : FleetConsoleApp) (name tag gname : str)
    (g : ref) (cs : list ref) (w : world) :
  energy_groups self !! tag = Some g →
  heap w !! g = Some (FleetGroup gname cs) →
  add_vehicle self name tag w =
    (Ok self,
     World (<[g := FleetGroup gname (cs ++ [length (heap w)])]>
              (heap w ++ [Vehicle name tag]))
           (stdin w) (stdout w)).
Proof.
  intros E Hg. unfold add_vehicle.
  rewrite (bind_Ok _ _ _ _ _ (get_group_present _ _ _ _ E)).
  rewrite bind_eq. unfold alloc at 1.
  rewrite bind_eq.
  erewrite add_group by (cbn [heap]; apply lookup_app_l_Some, Hg).
  reflexivity.
Qed.

Lemma add_vehicle_absent (self : FleetConsoleApp) (name tag rname : str)
    (groups : list ref) (w : world) :
  energy_groups self !! tag = None →
  heap w !! root_group self = Some (FleetGroup rname groups) →
  add_vehicle self name tag w =
    (Ok (App (root_group self) (<[tag := length (heap w)]> (energy_groups self))),
     World (<[length (heap w) := FleetGroup (capitalize tag) [S (length (heap w))]]>
              (<[root_group self := FleetGroup rname (groups ++ [length (heap w)])]>
                 (heap w ++ [FleetGroup (capitalize tag) []])
               ++ [Vehicle name tag]))
           (stdin w) (stdout w)).
Proof.
  intros E Hroot. unfold add_vehicle.
  rewrite (bind_Ok _ _ _ _ _ (get_group_absent _ _ _ _ _ E Hroot)).
  rewrite bind_eq. unfold alloc at 1. cbn [heap stdin stdout].
  rewrite bind_eq.
  assert (Hlt : (root_group self < length (heap w))%nat)
    by (eapply lookup_lt_Some, Hroot).
  erewrite add_group; cycle 1.
  { cbn [heap]. apply lookup_app_l_Some.
    rewrite list_lookup_insert_ne by lia.
    rewrite lookup_app_r by lia. rewrite Nat.sub_diag. reflexivity. }
  cbn [heap stdin stdout].
  rewrite length_insert, length_app. cbn [length].
  replace (length (heap w) + 1)%nat with (S (length (heap w))) by lia.
  reflexivity.
Qed.

Lemma children_lookup (h : list FleetComponent) (r : ref) (name : str) (cs : list ref) :
  h !! r = Some (FleetGroup name cs) → children h r = cs.
Proof. intros E. unfold children. rewrite E. reflexivity. Qed.

Lemma concat_singletons {A} (l : list A) : concat (map (λ x, [x]) l) = l.
Proof. induction l as [|x l IH]; simpl; [reflexivity|]. rewrite IH. reflexivity. Qed.

Lemma leaves_vehicles (h : list FleetComponent) (d : nat) (cs : list ref) :
  Forall (λ c, ∃ name tag, h !! c = Some (Vehicle name tag)) cs →
  concat (map (leaves (S d) h) cs) = cs.
Proof.
  intros H. rewrite <- (concat_singletons cs) at 2. f_equal.
  apply map_ext_Forall. eapply Forall_impl; [exact H|].
  intros c (name & tag & E). cbn [leaves]. rewrite E. reflexivity.
Qed.

Lemma leaves_registry (self : FleetConsoleApp) (h : list FleetComponent)
    (d : nat) (rname : str) (groups : list ref) :
  registry_inv self h →
  h !! root_group self = Some (FleetGroup rname groups) →
  leaves (3 + d) h (root_group self) = concat (map (children h) groups).
Proof.
  intros Hinv Hroot.
  destruct (inv_root _ _ Hinv) as (groups' & Hroot' & _ & _ & Hgroups).
  rewrite Hroot in Hroot'. injection Hroot' as _ <-.
  change (3 + d)%nat with (S (S (S d))). cbn [leaves]. rewrite Hroot.
  f_equal. apply map_ext_Forall, Forall_forall. intros g Hg.
  apply Hgroups in Hg as [tag Htag].
  destruct (inv_group _ _ Hinv _ _ Htag) as (cs & Eg & Hcs).
  rewrite Eg, (children_lookup _ _ _ _ Eg).
  apply leaves_vehicles. eapply Forall_impl; [exact Hcs|].
  intros c [name E]. eauto.
Qed.

Lemma registry_tree (self : FleetConsoleApp) (h : list FleetComponent) (d : nat) :
  registry_inv self h → tree_within h (3 + d) (root_group self).
Proof.
  intros Hinv.
  destruct (inv_root _ _ Hinv) as (groups & Hroot & _ & _ & Hgroups).
  change (3 + d)%nat with (S (S (S d))). cbn [tree_within]. rewrite Hroot.
  apply Forall_forall. intros g Hg.
  apply Hgroups in Hg as [tag Htag].
  destruct (inv_group _ _ Hinv _ _ Htag) as (cs & Eg & Hcs).
  rewrite Eg. eapply Forall_impl; [exact Hcs|].
  intros c [name E]. cbn beta. rewrite E. exact I.
Qed.

Lemma concat_map_update {A} (f f' : ref → list A) (l : list ref) (g : ref) (v : A) :
  NoDup l → g ∈ l →
  (∀ x, x ∈ l → f' x = f x ++ if decide (x = g) then [v] else []) →
  concat (map f' l) ≡ₚ concat (map f l) ++ [v].
Proof.
  intros Hnd. induction Hnd as [|y l Hy Hnd IH]; intros Hg Hf.
  - inversion Hg.
  - cbn [map concat]. rewrite (Hf y) by constructor.
    destruct (decide (y = g)) as [->|Hne].
    + assert (map f' l = map f l) as ->.
      { apply map_ext_Forall, Forall_forall. intros x Hx.
        rewrite (Hf x) by (constructor; exact Hx).
        rewrite decide_False by (intros ->; contradiction).
        apply app_nil_r. }
      rewrite <- !app_assoc. apply Permutation_app_head, Permutation_app_comm.
    + rewrite app_nil_r. rewrite <- app_assoc. apply Permutation_app_head.
      apply IH.
      * apply elem_of_cons in Hg as [->|Hg]; [contradiction|exact Hg].
      * intros x Hx. apply Hf. constructor. exact Hx.
Qed.

(** The store after [add_vehicle], entry by entry. *)

Lemma heap_present_other (h x : list FleetComponent) (g i : ref) (o y : FleetComponent) :
  i ≠ g → h !! i = Some y → <[g := o]> (h ++ x) !! i = Some y.
Proof.
  intros Hne E. rewrite list_lookup_insert_ne by congruence.
  apply lookup_app_l_Some, E.
Qed.

Lemma heap_present_self (h x : list FleetComponent) (g : ref) (o y : FleetComponent) :
  h !! g = Some y → <[g := o]> (h ++ x) !! g = Some o.
Proof.
  intros E. apply list_lookup_insert_eq. rewrite length_app.
  apply lookup_lt_Some in E. lia.
Qed.

Lemma heap_present_new (h : list FleetComponent) (g : ref) (o x y : FleetComponent) :
  h !! g = Some y → <[g := o]> (h ++ [x]) !! length h = Some x.
Proof.
  intros E. apply lookup_lt_Some in E.
  rewrite list_lookup_insert_ne by lia.
  rewrite lookup_app_r by lia. rewrite Nat.sub_diag. reflexivity.
Qed.

Lemma heap_absent_other (h : list FleetComponent) (root i : ref)
    (o1 o2 x1 x2 y : FleetComponent) :
  i ≠ root → h !! i = Some y →
  <[length h := o2]> (<[root := o1]> (h ++ [x1]) ++ [x2]) !! i = Some y.
Proof.
  intros Hne E. pose proof (lookup_lt_Some _ _ _ E) as Hlt.
  rewrite list_lookup_insert_ne by lia.
  apply lookup_app_l_Some.
  rewrite list_lookup_insert_ne by congruence.
  apply lookup_app_l_Some, E.
Qed.

Lemma heap_absent_root (h : list FleetComponent) (root : ref)
    (o1 o2 x1 x2 y : FleetComponent) :
  h !! root = Some y →
  <[length h := o2]> (<[root := o1]> (h ++ [x1]) ++ [x2]) !! root = Some o1.
Proof.
  intros E. pose proof (lookup_lt_Some _ _ _ E) as Hlt.
  rewrite list_lookup_insert_ne by lia.
  apply lookup_app_l_Some.
  apply list_lookup_insert_eq. rewrite length_app. lia.
Qed.

Lemma heap_absent_group (h : list FleetComponent) (root : ref)
    (o1 o2 x1 x2 : FleetComponent) :
  <[length h := o2]> (<[root := o1]> (h ++ [x1]) ++ [x2]) !! length h = Some o2.
Proof.
  apply list_lookup_insert_eq.
  rewrite length_app, length_insert, length_app. simpl. lia.
Qed.

Lemma heap_absent_new (h : list FleetComponent) (root : ref)
    (o1 o2 x1 x2 : FleetComponent) :
  <[length h := o2]> (<[root := o1]> (h ++ [x1]) ++ [x2]) !! S (length h) = Some x2.
Proof.
  rewrite list_lookup_insert_ne by lia.
  rewrite lookup_app_r by (rewrite length_insert, length_app; simpl; lia).
  rewrite length_insert, length_app. simpl.
  replace (S (length h) - (length h + 1))%nat with 0%nat by lia. reflexivity.
Qed.

Lemma add_vehicle_post_present (self : FleetConsoleApp) (h : list FleetComponent)
    (name tag : str) (g : ref) (cs : list ref) :
  registry_inv self h →
  energy_groups self !! tag = Some g →
  h !! g = Some (FleetGroup (capitalize tag) cs) →
  add_vehicle_post self h name tag self
    (<[g := FleetGroup (capitalize tag) (cs ++ [length h])]> (h ++ [Vehicle name tag]))
    (length h) g.
Proof.
  intros Hinv Etag Eg.
  set (h' := <[g := _]> _).
  destruct (inv_root _ _ Hinv) as (groups & Hroot & Hnd & Hrg & Hgroups).
  assert (Hgin : g ∈ groups) by (apply Hgroups; eauto).
  assert (Hgroot : root_group self ≠ g) by congruence.
  assert (Hcs : Forall (λ c, ∃ n, h !! c = Some (Vehicle n tag)) cs).
  { destruct (inv_group _ _ Hinv _ _ Etag) as (cs0 & Eg0 & Hcs0).
    rewrite Eg in Eg0. injection Eg0 as <-. exact Hcs0. }
  assert (L1 : ∀ i y, i ≠ g → h !! i = Some y → h' !! i = Some y)
    by (intros i y; apply heap_present_other).
  assert (L2 : h' !! g = Some (FleetGroup (capitalize tag) (cs ++ [length h])))
    by (eapply heap_present_self, Eg).
  assert (L3 : h' !! length h = Some (Vehicle name tag))
    by (eapply heap_present_new, Eg).
  assert (Lv : ∀ i n e, h !! i = Some (Vehicle n e) → h' !! i = Some (Vehicle n e)).
  { intros i n e E. apply L1; [|exact E]. intros ->. congruence. }
  assert (Lc : ∀ tag' g', energy_groups self !! tag' = Some g' → g' ≠ g →
                 children h' g' = children h g').
  { intros tag' g' E' Hne.
    destruct (inv_group _ _ Hinv _ _ E') as (cs' & Eg' & _).
    rewrite (children_lookup _ _ _ _ Eg').
    apply (children_lookup _ _ (capitalize tag')), L1; assumption. }
  assert (Hinv' : registry_inv self h').
  { split.
    + exists groups. repeat split; try assumption.
      * apply L1; [exact Hgroot|exact Hroot].
      * apply Hgroups.
      * apply Hgroups.
    + apply (inv_inj _ _ Hinv).
    + intros tag' g' E'.
      destruct (inv_group _ _ Hinv _ _ E') as (cs' & Eg' & Hcs').
      destruct (decide (g' = g)) as [->|Hne].
      * assert (tag' = tag) as -> by (eapply (inv_inj _ _ Hinv); eassumption).
        exists (cs ++ [length h]). split; [exact L2|].
        apply Forall_app. split.
        -- eapply Forall_impl; [exact Hcs|]. intros c [n E]. eauto.
        -- repeat constructor. eauto.
      * exists cs'. split; [apply L1; assumption|].
        eapply Forall_impl; [exact Hcs'|]. intros c [n E]. eauto. }
  split.
  - exact Hinv'.
  - reflexivity.
  - apply lookup_ge_None. lia.
  - exact L3.
  - exact Lv.
  - intros i n e E. destruct (decide (i = g)) as [->|Hne].
    { rewrite L2 in E. discriminate. }
    unfold h' in E. rewrite list_lookup_insert_ne in E by congruence.
    destruct (decide (i < length h)%nat) as [Hlt|Hge].
    + right. rewrite lookup_app_l in E by lia. exact E.
    + left. apply lookup_lt_Some in E. rewrite length_app in E. simpl in E. lia.
  - intros i n cs' E. destruct (decide (i = g)) as [->|Hne].
    + rewrite Eg in E. injection E as <- <-. exists [length h]. exact L2.
    + exists []. rewrite app_nil_r. apply L1; assumption.
  - exact Etag.
  - intros E. congruence.
  - rewrite (children_lookup _ _ _ _ L2), (children_lookup _ _ _ _ Eg). reflexivity.
  - intros tag' g' E. exact E.
  - intros tag' g' E' Hne. split; [exact E'|].
    apply (Lc tag'); [exact E'|]. intros ->.
    apply Hne. eapply (inv_inj _ _ Hinv); eassumption.
  - intros d.
    rewrite (leaves_registry _ _ d _ _ Hinv Hroot).
    rewrite (leaves_registry _ _ d _ groups Hinv' (L1 _ _ Hgroot Hroot)).
    apply (concat_map_update _ _ _ g); [exact Hnd|exact Hgin|].
    intros x Hx. destruct (decide (x = g)) as [->|Hne].
    + rewrite (children_lookup _ _ _ _ L2), (children_lookup _ _ _ _ Eg). reflexivity.
    + rewrite app_nil_r. apply Hgroups in Hx as [tag' E'].
      apply (Lc tag'); assumption.
Qed.

Lemma add_vehicle_post_absent (self : FleetConsoleApp) (h : list FleetComponent)
    (name tag rname : str) (groups : list ref) :
  registry_inv self h →
  energy_groups self !! tag = None →
  h !! root_group self = Some (FleetGroup rname groups) →
  add_vehicle_post self h name tag
    (App (root_group self) (<[tag := length h]> (energy_groups self)))
    (<[length h := FleetGroup (capitalize tag) [S (length h)]]>
       (<[root_group self := FleetGroup rname (groups ++ [length h])]>
          (h ++ [FleetGroup (capitalize tag) []])
        ++ [Vehicle name tag]))
    (S (length h)) (length h).
Proof.
  intros Hinv Etag Hroot.
  set (h' := <[length h := _]> _).
  set (self' := App _ _).
  destruct (inv_root _ _ Hinv) as (groups' & Hroot' & Hnd & Hrg & Hgroups).
  rewrite Hroot in Hroot'. injection Hroot' as -> <-.
  assert (Hnone : h !! length h = None) by (apply lookup_ge_None; lia).
  assert (Hrlt : (root_group self < length h)%nat) by (eapply lookup_lt_Some, Hroot).
  assert (L1 : ∀ i y, i ≠ root_group self → h !! i = Some y → h' !! i = Some y)
    by (intros i y; apply heap_absent_other).
  assert (L2 : h' !! root_group self
                 = Some (FleetGroup (u "Автопарк") (groups ++ [length h])))
    by (eapply heap_absent_root, Hroot).
  assert (L3 : h' !! length h = Some (FleetGroup (capitalize tag) [S (length h)]))
    by apply heap_absent_group.
  assert (L4 : h' !! S (length h) = Some (Vehicle name tag))
    by apply heap_absent_new.
  assert (Hold : ∀ tag' g', energy_groups self !! tag' = Some g' →
                   tag' ≠ tag ∧ g' ≠ length h ∧ g' ≠ root_group self ∧ g' ∈ groups).
  { intros tag' g' E'.
    destruct (inv_group _ _ Hinv _ _ E') as (cs' & Eg' & _).
    assert (g' ∈ groups) by (apply Hgroups; eauto).
    repeat split; [congruence|congruence|congruence|assumption]. }
  assert (Lv : ∀ i n e, h !! i = Some (Vehicle n e) → h' !! i = Some (Vehicle n e)).
  { intros i n e E. apply L1; [|exact E]. intros ->. congruence. }
  assert (Lc : ∀ tag' g', energy_groups self !! tag' = Some g' →
                 children h' g' = children h g').
  { intros tag' g' E'.
    destruct (Hold _ _ E') as (_ & _ & Hne & _).
    destruct (inv_group _ _ Hinv _ _ E') as (cs' & Eg' & _).
    rewrite (children_lookup _ _ _ _ Eg').
    apply (children_lookup _ _ (capitalize tag')), L1; assumption. }
  assert (Hinv' : registry_inv self' h').
  { split; cbn [root_group energy_groups self'].
    - exists (groups ++ [length h]). split; [exact L2|]. split; [|split].
      + apply NoDup_app. split; [exact Hnd|]. split; [|apply NoDup_singleton].
        intros g Hg ->%list_elem_of_singleton.
        apply Hgroups in Hg as [tag' E']. destruct (Hold _ _ E') as (_ & ? & _).
        congruence.
      + intros [Hin|Heq%list_elem_of_singleton]%elem_of_app; [contradiction|lia].
      + intros g. rewrite elem_of_app, list_elem_of_singleton. split.
        * intros [Hg| ->].
          -- apply Hgroups in Hg as [tag' E']. exists tag'.
             destruct (Hold _ _ E') as (? & _).
             rewrite lookup_insert_ne by congruence. exact E'.
          -- exists tag. apply lookup_insert_eq.
        * intros [tag' E']. destruct (decide (tag' = tag)) as [->|Hne].
          -- rewrite lookup_insert_eq in E'. right. congruence.
          -- rewrite lookup_insert_ne in E' by congruence. left.
             apply Hgroups. eauto.
    - intros t1 t2 g E1 E2.
      destruct (decide (t1 = tag)) as [->|H1]; destruct (decide (t2 = tag)) as [->|H2];
        [reflexivity| | |].
      + rewrite lookup_insert_eq in E1. rewrite lookup_insert_ne in E2 by congruence.
        destruct (Hold _ _ E2) as (_ & ? & _). congruence.
      + rewrite lookup_insert_eq in E2. rewrite lookup_insert_ne in E1 by congruence.
        destruct (Hold _ _ E1) as (_ & ? & _). congruence.
      + rewrite lookup_insert_ne in E1, E2 by congruence.
        eapply (inv_inj _ _ Hinv); eassumption.
    - intros tag' g' E'. destruct (decide (tag' = tag)) as [->|Hne].
      + rewrite lookup_insert_eq in E'. injection E' as <-.
        exists [S (length h)]. split; [exact L3|]. repeat constructor. eauto.
      + rewrite lookup_insert_ne in E' by congruence.
        destruct (Hold _ _ E') as (_ & _ & Hgr & _).
        destruct (inv_group _ _ Hinv _ _ E') as (cs' & Eg' & Hcs').
        exists cs'. split; [apply L1; assumption|].
        eapply Forall_impl; [exact Hcs'|]. intros c [n E]. eauto. }
  split.
  - exact Hinv'.
  - reflexivity.
  - apply lookup_ge_None. lia.
  - exact L4.
  - exact Lv.
  - intros i n e E. destruct (decide (i = length h)) as [->|Hne].
    { rewrite L3 in E. discriminate. }
    destruct (decide (i = root_group self)) as [->|Hne'].
    { rewrite L2 in E. discriminate. }
    unfold h' in E. rewrite list_lookup_insert_ne in E by congruence.
    destruct (decide (i < length h)%nat) as [Hlt|Hge].
    + right.
      rewrite lookup_app_l in E by (rewrite length_insert, length_app; simpl; lia).
      rewrite list_lookup_insert_ne in E by congruence.
      rewrite lookup_app_l in E by lia. exact E.
    + left. apply lookup_lt_Some in E.
      rewrite length_app, length_insert, length_app in E. simpl in E. lia.
  - intros i n cs' E. destruct (decide (i = root_group self)) as [->|Hne].
    + rewrite Hroot in E. injection E as <- <-. exists [length h]. exact L2.
    + exists []. rewrite app_nil_r. apply L1; assumption.
  - apply lookup_insert_eq.
  - intros _. exact Hnone.
  - rewrite (children_lookup _ _ _ _ L3). unfold children. rewrite Hnone. reflexivity.
  - intros tag' g' E'. destruct (Hold _ _ E') as (? & _).
    cbn [energy_groups self']. rewrite lookup_insert_ne by congruence. exact E'.
  - intros tag' g' E' Hne. cbn [energy_groups self'] in E'.
    rewrite lookup_insert_ne in E' by congruence.
    split; [exact E'|]. apply (Lc tag'), E'.
  - intros d.
    rewrite (leaves_registry _ _ d _ _ Hinv Hroot).
    pose proof (leaves_registry self' h' d _ _ Hinv' L2) as Hl'.
    cbn [root_group self'] in Hl'. rewrite Hl'. clear Hl'.
    rewrite map_app, concat_app. cbn [map concat].
    rewrite (children_lookup _ _ _ _ L3), app_nil_r.
    assert (map (children h') groups = map (children h) groups) as ->; [|reflexivity].
    apply map_ext_Forall, Forall_forall. intros g Hg.
    apply Hgroups in Hg as [tag' E']. apply (Lc tag'), E'.
Qed.

(** One [add_vehicle] call on a well-formed registry. *)
Lemma add_vehicle_step (self : FleetConsoleApp) (w : world) (name tag : str) :
  registry_inv self (heap w) →
  ∃ self' h' v g,
    add_vehicle self name tag w = (Ok self', World h' (stdin w) (stdout w)) ∧
    add_vehicle_post self (heap w) name tag self' h' v g.
Proof.
  intros Hinv.
  destruct (inv_root _ _ Hinv) as (groups & Hroot & _).
  destruct (energy_groups self !! tag) as [g|] eqn:Etag.
  - destruct (inv_group _ _ Hinv _ _ Etag) as (cs & Eg & _).
    eexists _, _, _, _. split.
    + apply (add_vehicle_present _ _ _ _ _ _ _ Etag Eg).
    + apply add_vehicle_post_present; assumption.
  - eexists _, _, _, _. split.
    + apply (add_vehicle_absent _ _ _ _ _ _ Etag Hroot).
    + apply add_vehicle_post_absent; assumption.
Qed.

(** ** Sequences of [add_vehicle] calls *)

Lemma init_run (lines : list str) :
  FleetConsoleApp__init__ (World [] lines [])
    = (Ok (App 0%nat ∅), World [FleetGroup (u "Автопарк") []] lines []).
Proof. reflexivity. Qed.

Lemma init_inv : registry_inv (App 0%nat ∅) [FleetGroup (u "Автопарк") []].
Proof.
  split; cbn [root_group energy_groups].
  - exists []. split; [reflexivity|]. split; [constructor|]. split.
    + intros H. inversion H.
    + intros g. split.
      * intros H. inversion H.
      * intros [tag E]. rewrite lookup_empty in E. discriminate.
  - intros tag tag' g E. rewrite lookup_empty in E. discriminate.
  - intros tag g E. rewrite lookup_empty in E. discriminate.
Qed.

Lemma init_built : built_by [] [] (App 0%nat ∅) [FleetGroup (u "Автопарк") []].
Proof.
  split.
  - exact init_inv.
  - constructor.
  - constructor.
  - intros d. reflexivity.
  - intros c H. inversion H.
  - intros tag g E. cbn [energy_groups] in E. rewrite lookup_empty in E. discriminate.
Qed.

Lemma filter_none {A} (P : A → Prop) `{∀ x, Decision (P x)} (l : list A) :
  Forall (λ x, ¬ P x) l → filter P l = [].
Proof.
  induction 1 as [|x l Hx _ IH]; [reflexivity|].
  rewrite filter_cons_False by exact Hx. exact IH.
Qed.

Lemma built_by_step (done : list (str * str)) (vs : list ref)
    (self self' : FleetConsoleApp) (h h' : list FleetComponent)
    (name tag : str) (v g : ref) :
  built_by done vs self h →
  add_vehicle_post self h name tag self' h' v g →
  built_by (done ++ [(name, tag)]) (vs ++ [v]) self' h'.
Proof.
  intros B P.
  pose proof (Forall2_length _ _ _ (built_vehicles _ _ _ _ B)) as Hlen.
  split.
  - exact (post_inv _ _ _ _ _ _ _ _ P).
  - apply Forall2_app.
    + eapply Forall2_impl; [exact (built_vehicles _ _ _ _ B)|].
      intros v0 c E. exact (post_vehicles _ _ _ _ _ _ _ _ P _ _ _ E).
    + repeat constructor. exact (post_leaf _ _ _ _ _ _ _ _ P).
  - apply NoDup_app. split; [exact (built_distinct _ _ _ _ B)|].
    split; [|apply NoDup_singleton].
    intros v0 Hv0 ->%list_elem_of_singleton.
    apply list_elem_of_lookup in Hv0 as [i Hi].
    destruct (Forall2_lookup_l _ _ _ _ _ (built_vehicles _ _ _ _ B) Hi) as (c & _ & E).
    rewrite (post_fresh _ _ _ _ _ _ _ _ P) in E. discriminate.
  - intros d. rewrite (post_root _ _ _ _ _ _ _ _ P).
    rewrite (post_leaves _ _ _ _ _ _ _ _ P d).
    rewrite (built_leaves _ _ _ _ B d). reflexivity.
  - intros c [Hc| ->%list_elem_of_singleton]%elem_of_app.
    + destruct (built_tags _ _ _ _ B c Hc) as [g0 E].
      exists g0. exact (post_mono _ _ _ _ _ _ _ _ P _ _ E).
    + exists g. exact (post_group _ _ _ _ _ _ _ _ P).
  - intros tag' g' E'.
    rewrite zip_with_app by exact Hlen.
    rewrite filter_app, fmap_app. cbn [zip_with].
    destruct (decide (tag' = tag)) as [->|Hne].
    + rewrite (post_group _ _ _ _ _ _ _ _ P) in E'. injection E' as <-.
      rewrite (post_appended _ _ _ _ _ _ _ _ P).
      rewrite filter_cons_True by reflexivity. rewrite filter_nil. cbn [fmap list_fmap].
      f_equal.
      destruct (energy_groups self !! tag) as [g0|] eqn:E0.
      * pose proof (post_mono _ _ _ _ _ _ _ _ P _ _ E0) as E1.
        rewrite (post_group _ _ _ _ _ _ _ _ P) in E1. injection E1 as <-.
        exact (built_children _ _ _ _ B _ _ E0).
      * unfold children. rewrite (post_new_group _ _ _ _ _ _ _ _ P E0).
        assert (filter (λ p : ref * (str * str), p.2.2 = tag) (zip vs done) = [])
          as ->; [|reflexivity].
        apply filter_none, Forall_forall.
        intros [v0 c] Hin Htag. cbn in Htag.
        apply elem_of_zip_r in Hin. cbn in Hin.
        destruct (built_tags _ _ _ _ B c Hin) as [g0 Eg0].
        rewrite Htag, E0 in Eg0. discriminate.
    + rewrite filter_cons_False by (cbn; congruence).
      rewrite filter_nil, app_nil_r.
      destruct (post_others _ _ _ _ _ _ _ _ P _ _ E' Hne) as [E0 ->].
      exact (built_children _ _ _ _ B _ _ E0).
Qed.

Lemma add_vehicles_run (calls : list (str * str)) :
  ∀ (done : list (str * str)) (vs : list ref) (self : FleetConsoleApp) (w : world),
    built_by done vs self (heap w) →
    ∃ self' h' vs',
      add_vehicles calls self w = (Ok self', World h' (stdin w) (stdout w)) ∧
      built_by (done ++ calls) (vs ++ vs') self' h'.
Proof.
  induction calls as [|[name tag] calls IH]; intros done vs self w B.
  - exists self, (heap w), []. rewrite !app_nil_r. split; [|exact B].
    destruct w; reflexivity.
  - destruct (add_vehicle_step self w name tag (built_inv _ _ _ _ B))
      as (self1 & h1 & v & g & Hrun & P).
    pose proof (built_by_step _ _ _ _ _ _ _ _ _ _ B P) as B1.
    destruct (IH _ _ self1 (World h1 (stdin w) (stdout w)) B1)
      as (self' & h' & vs' & Hrun' & B').
    exists self', h', (v :: vs'). split.
    + cbn [add_vehicles]. rewrite (bind_Ok _ _ _ _ _ Hrun). exact Hrun'.
    + rewrite <- !app_assoc in B'. exact B'.
Qed.

(** C1.  After any sequence of [add_vehicle] calls on a new registry, with
    non-empty names and energy sources of the menu, the vehicles under the
    root are as many as the calls.  Each call made its own vehicle [v],
    distinct from the vehicle of every other call even when the arguments
    are the same, holding the name and energy source of the call, and [v]
    is a child of the group registered for its energy source, itself a
    child of the root; the children of a group are the vehicles of the
    calls with its energy source, in the order of the calls. *)
Theorem add_vehicles_leaves (calls : list (str * str)) (lines : list str) :
  Forall (λ c, c.1 ≠ [] ∧ c.2 ∈ sources) calls →
  ∃ self h vs,
    (FleetConsoleApp__init__ ≫= add_vehicles calls) (World [] lines [])
      = (Ok self, World h lines []) ∧
    length (leaves 3 h (root_group self)) = length calls ∧
    (∀ d, leaves (3 + d) h (root_group self) ≡ₚ vs) ∧
    NoDup vs ∧
    (∀ i j vi vj, i ≠ j → vs !! i = Some vi → vs !! j = Some vj → vi ≠ vj) ∧
    Forall2 (λ v c,
               h !! v = Some (Vehicle c.1 c.2) ∧
               ∃ g, energy_groups self !! c.2 = Some g ∧
                    g ∈ children h (root_group self) ∧
                    v ∈ children h g) vs calls ∧
    (∀ tag g, energy_groups self !! tag = Some g →
              children h g = (filter (λ p, p.2.2 = tag) (zip vs calls)).*1).
Proof.
  intros _.
  destruct (add_vehicles_run calls [] [] (App 0%nat ∅)
              (World [FleetGroup (u "Автопарк") []] lines []) init_built)
    as (self & h & vs & Hrun & B).
  cbn [app heap stdin stdout] in Hrun, B.
  pose proof (Forall2_length _ _ _ (built_vehicles _ _ _ _ B)) as Hlen.
  exists self, h, vs. split; [|split; [|split; [|split; [|split; [|split]]]]].
  - rewrite (bind_Ok _ _ _ _ _ (init_run lines)). exact Hrun.
  - rewrite (built_leaves _ _ _ _ B 0). exact Hlen.
  - exact (built_leaves _ _ _ _ B).
  - exact (built_distinct _ _ _ _ B).
  - intros i j vi vj Hij Hi Hj ->.
    apply Hij. eapply NoDup_lookup; [exact (built_distinct _ _ _ _ B)| |]; eassumption.
  - apply Forall2_same_length_lookup. split; [exact Hlen|].
    intros i v c Hv Hc. split.
    + exact (Forall2_lookup_lr _ _ _ _ _ _ (built_vehicles _ _ _ _ B) Hv Hc).
    + destruct (built_tags _ _ _ _ B c) as [g Eg].
      { eapply list_elem_of_lookup_2, Hc. }
      exists g. split; [exact Eg|]. split.
      * destruct (inv_root _ _ (built_inv _ _ _ _ B)) as (groups & Hroot & _ & _ & Hg).
        rewrite (children_lookup _ _ _ _ Hroot). apply Hg. eauto.
      * rewrite (built_children _ _ _ _ B _ _ Eg).
        apply list_elem_of_fmap. exists (v, c). split; [reflexivity|].
        apply list_elem_of_filter. split; [reflexivity|].
        apply (elem_of_lookup_zip_with_2 _ _ _ _ _ (v, c) i); assumption.
  - exact (built_children _ _ _ _ B).
Qed.

Lemma add_vehicles_leaves_witness :
  ∃ self h (vs : list nat),
    (FleetConsoleApp__init__ ≫=
       add_vehicles [(u "Bus-1", u "электричество"); (u "Bus-2", u "бензин");
                     (u "Bus-1", u "электричество")]) (World [] [] [])
      = (Ok self, World h [] []) ∧
    length (leaves 3 h (root_group self)) = 3%nat ∧
    NoDup vs.
Proof.
  destruct (add_vehicles_leaves
              [(u "Bus-1", u "электричество"); (u "Bus-2", u "бензин");
               (u "Bus-1", u "электричество")] [])
    as (self & h & vs & Hrun & Hcount & _ & Hnd & _).
  - repeat constructor; try discriminate;
      apply (bool_decide_unpack _); vm_compute; exact I.
  - exists self, h, vs. repeat split; assumption.
Defined.

(** ** Reachable states of the registry *)

Lemma render_total (self : FleetConsoleApp) (w : world) :
  registry_inv self (heap w) → ∃ text, render self w = (Ok text, w).
Proof.
  intros Hinv. unfold render.
  destruct (display_total (heap w) recursion_limit (root_group self) 0
              (registry_tree self (heap w) 997 Hinv)) as [text ->].
  eauto.
Qed.

Lemma registry_step_run (self : FleetConsoleApp) (w : world) (op : registry_op) :
  registry_inv self (heap w) →
  ∃ self' w',
    registry_step self op w = (Ok self', w') ∧
    registry_inv self' (heap w') ∧
    root_group self' = root_group self ∧
    (∀ tag g, energy_groups self !! tag = Some g →
              energy_groups self' !! tag = Some g).
Proof.
  intros Hinv. destruct op as [name tag|]; cbn [registry_step].
  - destruct (add_vehicle_step self w name tag Hinv) as (self' & h' & v & g & Hrun & P).
    exists self', (World h' (stdin w) (stdout w)). split; [exact Hrun|].
    split; [exact (post_inv _ _ _ _ _ _ _ _ P)|].
    split; [exact (post_root _ _ _ _ _ _ _ _ P)|].
    exact (post_mono _ _ _ _ _ _ _ _ P).
  - destruct (render_total self w Hinv) as [text Htext].
    exists self, w. split.
    + rewrite (bind_Ok _ _ _ _ _ Htext). reflexivity.
    + split; [exact Hinv|]. split; [reflexivity|]. intros tag g E. exact E.
Qed.

Lemma registry_steps_run (ops : list registry_op) :
  ∀ (self : FleetConsoleApp) (w : world),
    registry_inv self (heap w) →
    ∃ self' w',
      registry_steps ops self w = (Ok self', w') ∧
      registry_inv self' (heap w') ∧
      root_group self' = root_group self ∧
      (∀ tag g, energy_groups self !! tag = Some g →
                energy_groups self' !! tag = Some g).
Proof.
  induction ops as [|op ops IH]; intros self w Hinv.
  - exists self, w. split; [reflexivity|]. split; [exact Hinv|].
    split; [reflexivity|]. intros tag g E. exact E.
  - destruct (registry_step_run self w op Hinv) as (self1 & w1 & Hrun1 & Hinv1 & Hr1 & Hm1).
    destruct (IH self1 w1 Hinv1) as (self2 & w2 & Hrun2 & Hinv2 & Hr2 & Hm2).
    exists self2, w2. split; [|split; [exact Hinv2|split]].
    + cbn [registry_steps]. rewrite (bind_Ok _ _ _ _ _ Hrun1). exact Hrun2.
    + congruence.
    + intros tag g E. apply Hm2, Hm1, E.
Qed.

Lemma NoDup_count (l : list ref) (g : ref) :
  NoDup l → g ∈ l → length (filter (λ x, x = g) l) = 1%nat.
Proof.
  intros Hnd. induction Hnd as [|y l Hy Hnd IH]; intros Hg; [inversion Hg|].
  destruct (decide (y = g)) as [->|Hne].
  - rewrite filter_cons_True by reflexivity. cbn [length]. f_equal.
    rewrite filter_none; [reflexivity|].
    apply Forall_forall. intros x Hx ->. contradiction.
  - rewrite filter_cons_False by exact Hne. apply IH.
    apply elem_of_cons in Hg as [->|Hg]; [contradiction|exact Hg].
Qed.

Lemma registry_inv_group (self : FleetConsoleApp) (h : list FleetComponent)
    (tag : str) (g : ref) :
  registry_inv self h →
  energy_groups self !! tag = Some g →
  (∃ cs, h !! g = Some (FleetGroup (capitalize tag) cs)) ∧
  length (filter (λ x, x = g) (children h (root_group self))) = 1%nat ∧
  (∀ tag', energy_groups self !! tag' = Some g → tag' = tag).
Proof.
  intros Hinv E.
  destruct (inv_root _ _ Hinv) as (groups & Hroot & Hnd & _ & Hgroups).
  destruct (inv_group _ _ Hinv _ _ E) as (cs & Eg & _).
  split; [eauto|]. split.
  - rewrite (children_lookup _ _ _ _ Hroot).
    apply NoDup_count; [exact Hnd|]. apply Hgroups. eauto.
  - intros tag' E'. eapply (inv_inj _ _ Hinv); eassumption.
Qed.

(** C3.  Whatever [add_vehicle] and [render] calls [ops1] were made on a
    new registry, they all returned, and in the state reached every energy
    source registered in [energy_groups] maps to a group of the store that
    occurs once among the children of the root and is registered for that
    energy source alone; the children of the root are all registered.
    Whatever calls [ops2] follow, they return too, and after them the
    energy source still maps to the same group, still a child of the same
    root. *)
Theorem registry_groups_invariant (ops1 ops2 : list registry_op) (lines : list str) :
  ∃ self1 w1 self2 w2,
    (FleetConsoleApp__init__ ≫= registry_steps ops1) (World [] lines [])
      = (Ok self1, w1) ∧
    registry_steps ops2 self1 w1 = (Ok self2, w2) ∧
    root_group self2 = root_group self1 ∧
    (∀ g, g ∈ children (heap w1) (root_group self1) →
          ∃ tag, energy_groups self1 !! tag = Some g) ∧
    ∀ tag g,
      energy_groups self1 !! tag = Some g →
      ((∃ cs, heap w1 !! g = Some (FleetGroup (capitalize tag) cs)) ∧
       length (filter (λ x, x = g) (children (heap w1) (root_group self1))) = 1%nat ∧
       (∀ tag', energy_groups self1 !! tag' = Some g → tag' = tag)) ∧
      energy_groups self2 !! tag = Some g ∧
      ((∃ cs, heap w2 !! g = Some (FleetGroup (capitalize tag) cs)) ∧
       length (filter (λ x, x = g) (children (heap w2) (root_group self2))) = 1%nat ∧
       (∀ tag', energy_groups self2 !! tag' = Some g → tag' = tag)).
Proof.
  destruct (registry_steps_run ops1 (App 0%nat ∅)
              (World [FleetGroup (u "Автопарк") []] lines []) init_inv)
    as (self1 & w1 & Hrun1 & Hinv1 & _ & _).
  destruct (registry_steps_run ops2 self1 w1 Hinv1)
    as (self2 & w2 & Hrun2 & Hinv2 & Hroot2 & Hmono).
  exists self1, w1, self2, w2.
  split; [|split; [exact Hrun2|split; [exact Hroot2|split]]].
  - rewrite (bind_Ok _ _ _ _ _ (init_run lines)). exact Hrun1.
  - intros g Hg.
    destruct (inv_root _ _ Hinv1) as (groups & Hroot & _ & _ & Hgroups).
    rewrite (children_lookup _ _ _ _ Hroot) in Hg. apply Hgroups, Hg.
  - intros tag g E. split; [|split].
    + apply registry_inv_group; assumption.
    + apply Hmono, E.
    + apply registry_inv_group; [exact Hinv2|]. apply Hmono, E.
Qed.

(** ** [_handle_add_vehicle], case by case *)

Lemma handle_add_vehicle_run (self : FleetConsoleApp) (w : world) :
  _handle_add_vehicle self w =
    let out := stdout w ++ [Prompt name_prompt] in
    match stdin w with
    | [] => (Raise EOFError, World (heap w) [] out)
    | line :: rest =>
      match strip line with
      | [] =>
        (Ok self,
         World (heap w) rest
               (out ++ [Print (u "Название автобуса не может быть пустым.")]))
      | _ :: _ =>
        match _ask_energy_source (World (heap w) rest out) with
        | (Ok None, w1) => (Ok self, w1)
        | (Ok (Some energy_source), w1) =>
          (self' ← add_vehicle self (strip line) energy_source;
           print (confirmation (strip line) energy_source);;
           mret self') w1
        | (Raise e, w1) => (Raise e, w1)
        end
      end
    end.
Proof.
  unfold _handle_add_vehicle, name_prompt, confirmation.
  rewrite bind_eq. unfold input at 1. cbv zeta.
  destruct (stdin w) as [|line rest]; [reflexivity|].
  destruct (strip line) as [|c name] eqn:Ename; [reflexivity|].
  rewrite bind_eq.
  destruct (_ask_energy_source _) as [[[tag|]|e] w1]; reflexivity.
Qed.

(** The registry is reached only with a stripped, non-empty name and an
    energy source of the menu; in every other case the store is left as it
    was. *)
Lemma handle_add_vehicle_registry (self : FleetConsoleApp) (w : world) :
  (∃ r w', _handle_add_vehicle self w = (r, w') ∧ heap w' = heap w ∧
           (r = Ok self ∨ ∃ e, r = Raise e)) ∨
  (∃ line line2 rest2 n tag,
     stdin w = line :: line2 :: rest2 ∧ strip line ≠ [] ∧
     isdigit (strip line2) = true ∧ int (strip line2) = Ok n ∧ 1 ≤ n ≤ 4 ∧
     sources !! Z.to_nat (n - 1) = Some tag ∧
     _handle_add_vehicle self w =
       (self' ← add_vehicle self (strip line) tag;
        print (confirmation (strip line) tag);;
        mret self')
         (World (heap w) rest2 ((stdout w ++ [Prompt name_prompt]) ++ ask_menu))).
Proof.
  rewrite handle_add_vehicle_run. cbv zeta.
  destruct (stdin w) as [|line rest] eqn:Ein.
  { left. eexists _, _. split; [reflexivity|]. split; [reflexivity|]. right. eauto. }
  destruct (strip line) as [|c name] eqn:Ename.
  { left. eexists _, _. split; [reflexivity|]. split; [reflexivity|]. left. reflexivity. }
  rewrite ask_energy_source_run. cbn [heap stdin stdout]. cbv zeta.
  destruct rest as [|line2 rest2].
  { left. eexists _, _. split; [reflexivity|]. split; [reflexivity|]. right. eauto. }
  destruct (isdigit (strip line2)) eqn:Edigit; cycle 1.
  { left. eexists _, _. split; [reflexivity|]. split; [reflexivity|]. left. reflexivity. }
  destruct (int (strip line2)) as [n|e] eqn:Eint; cycle 1.
  { left. eexists _, _. split; [reflexivity|]. split; [reflexivity|]. right. eauto. }
  destruct ((1 <=? n) && (n <=? 4)) eqn:Erange; cycle 1.
  { left. eexists _, _. split; [reflexivity|]. split; [reflexivity|]. left. reflexivity. }
  assert (Hn : 1 ≤ n ≤ 4) by lia.
  destruct (getitem_sources n Hn) as (tag & Etag & _). rewrite Etag.
  right. exists line, line2, rest2, n, tag.
  rewrite Ename. repeat split; try assumption; try lia. discriminate.
Qed.

(** ** [strip] *)

Lemma lstrip_by_spec (p : char → bool) (s : str) :
  ∃ l, s = l ++ lstrip_by p s ∧
       Forall (λ c, p c = true) l ∧
       (∀ c, head (lstrip_by p s) = Some c → p c = false).
Proof.
  induction s as [|c s (l & Hs & Hl & Hhead)]; cbn [lstrip_by].
  - exists []. repeat split; [constructor|discriminate].
  - destruct (p c) eqn:Ec.
    + exists (c :: l). split; [cbn; congruence|]. split; [constructor; assumption|].
      exact Hhead.
    + exists []. split; [reflexivity|]. split; [constructor|].
      intros c' [= <-]. exact Ec.
Qed.

Lemma lstrip_by_all (p : char → bool) (s : str) :
  Forall (λ c, p c = true) s → lstrip_by p s = [].
Proof.
  induction 1 as [|c s Hc _ IH]; cbn [lstrip_by]; [reflexivity|].
  rewrite Hc. exact IH.
Qed.

Lemma strip_by_spec (p : char → bool) (s : str) :
  ∃ l r, s = l ++ strip_by p s ++ r ∧
         Forall (λ c, p c = true) l ∧ Forall (λ c, p c = true) r ∧
         (∀ c, head (strip_by p s) = Some c → p c = false) ∧
         (∀ c, last (strip_by p s) = Some c → p c = false).
Proof.
  unfold strip_by.
  destruct (lstrip_by_spec p s) as (l & Hs & Hl & Hhead).
  destruct (lstrip_by_spec p (reverse (lstrip_by p s))) as (r & Hs' & Hr & Hlast).
  set (t := lstrip_by p (reverse (lstrip_by p s))) in *.
  assert (Hmid : lstrip_by p s = reverse t ++ reverse r).
  { rewrite <- reverse_app, <- Hs', reverse_involutive. reflexivity. }
  exists l, (reverse r). split; [|split; [exact Hl|split; [|split]]].
  - rewrite <- Hmid. exact Hs.
  - apply Forall_reverse, Hr.
  - intros c Hc. apply Hhead. rewrite Hmid.
    destruct (reverse t); [discriminate|exact Hc].
  - intros c Hc. apply Hlast. rewrite last_reverse in Hc. exact Hc.
Qed.

Lemma strip_all_space (s : str) :
  Forall (λ c, isspace_char c = true) s → strip s = [].
Proof.
  intros H. unfold strip, strip_by.
  rewrite (lstrip_by_all _ _ H). reflexivity.
Qed.

(** ** The outcomes of [_handle_add_vehicle] *)

Lemma handle_add_vehicle_empty (self : FleetConsoleApp) (w : world)
    (line : str) (rest : list str) :
  stdin w = line :: rest →
  strip line = [] →
  _handle_add_vehicle self w =
    (Ok self,
     World (heap w) rest
           (stdout w ++ [Prompt name_prompt;
                         Print (u "Название автобуса не может быть пустым.")])).
Proof.
  intros Hin Hname. rewrite handle_add_vehicle_run. cbv zeta.
  rewrite Hin, Hname, <- app_assoc. reflexivity.
Qed.

Lemma handle_add_vehicle_not_digit (self : FleetConsoleApp) (w : world)
    (line line2 : str) (rest2 : list str) :
  stdin w = line :: line2 :: rest2 →
  strip line ≠ [] →
  isdigit (strip line2) = false →
  _handle_add_vehicle self w =
    (Ok self,
     World (heap w) rest2
           (stdout w ++ [Prompt name_prompt] ++ ask_menu
              ++ [Print (u "Нужно ввести номер варианта.")])).
Proof.
  intros Hin Hname Hdigit. rewrite handle_add_vehicle_run. cbv zeta.
  rewrite Hin. destruct (strip line) as [|c name]; [contradiction|].
  rewrite ask_energy_source_run. cbn [heap stdin stdout]. cbv zeta.
  rewrite Hdigit, <- !app_assoc. reflexivity.
Qed.

Lemma handle_add_vehicle_out_of_range (self : FleetConsoleApp) (w : world)
    (line line2 : str) (rest2 : list str) (n : Z) :
  stdin w = line :: line2 :: rest2 →
  strip line ≠ [] →
  isdigit (strip line2) = true →
  int (strip line2) = Ok n →
  n < 1 ∨ 4 < n →
  _handle_add_vehicle self w =
    (Ok self,
     World (heap w) rest2
           (stdout w ++ [Prompt name_prompt] ++ ask_menu
              ++ [Print (u "Нет такого источника энергии.")])).
Proof.
  intros Hin Hname Hdigit Hint Hn. rewrite handle_add_vehicle_run. cbv zeta.
  rewrite Hin. destruct (strip line) as [|c name]; [contradiction|].
  rewrite ask_energy_source_run. cbn [heap stdin stdout]. cbv zeta.
  rewrite Hdigit, Hint.
  replace ((1 <=? n) && (n <=? 4)) with false by lia.
  rewrite <- !app_assoc. reflexivity.
Qed.

Lemma handle_add_vehicle_int_raises (self : FleetConsoleApp) (w : world)
    (line line2 : str) (rest2 : list str) (e : exn) :
  stdin w = line :: line2 :: rest2 →
  strip line ≠ [] →
  isdigit (strip line2) = true →
  int (strip line2) = Raise e →
  _handle_add_vehicle self w =
    (Raise e,
     World (heap w) rest2 (stdout w ++ [Prompt name_prompt] ++ ask_menu)).
Proof.
  intros Hin Hname Hdigit Hint. rewrite handle_add_vehicle_run. cbv zeta.
  rewrite Hin. destruct (strip line) as [|c name]; [contradiction|].
  rewrite ask_energy_source_run. cbn [heap stdin stdout]. cbv zeta.
  rewrite Hdigit, Hint, <- !app_assoc. reflexivity.
Qed.

Lemma handle_add_vehicle_accepts (self : FleetConsoleApp) (w : world)
    (line line2 : str) (rest2 : list str) (n : Z) :
  registry_inv self (heap w) →
  stdin w = line :: line2 :: rest2 →
  strip line ≠ [] →
  isdigit (strip line2) = true →
  int (strip line2) = Ok n →
  1 ≤ n ≤ 4 →
  ∃ tag self' h' v g,
    sources !! Z.to_nat (n - 1) = Some tag ∧
    _handle_add_vehicle self w =
      (Ok self',
       World h' rest2
             (stdout w ++ [Prompt name_prompt] ++ ask_menu
                ++ [Print (confirmation (strip line) tag)])) ∧
    add_vehicle_post self (heap w) (strip line) tag self' h' v g.
Proof.
  intros Hinv Hin Hname Hdigit Hint Hn.
  destruct (getitem_sources n Hn) as (tag & Etag & _).
  rewrite handle_add_vehicle_run. cbv zeta.
  rewrite Hin. destruct (strip line) as [|c name] eqn:Ename; [contradiction|].
  rewrite ask_energy_source_run. cbn [heap stdin stdout]. cbv zeta.
  rewrite Hdigit, Hint.
  replace ((1 <=? n) && (n <=? 4)) with true by lia.
  rewrite Etag.
  set (w1 := World (heap w) rest2 _).
  destruct (add_vehicle_step self w1 (c :: name) tag Hinv)
    as (self' & h' & v & g & Hrun & P).
  exists tag, self', h', v, g. split; [reflexivity|]. split; [|exact P].
  rewrite (bind_Ok _ _ _ _ _ Hrun). subst w1. cbn [heap stdin stdout].
  rewrite bind_eq. unfold print at 1. cbn [heap stdin stdout].
  rewrite <- !app_assoc. reflexivity.
Qed.

(** ** A turn of the loop *)

Lemma run_turn_run (self : FleetConsoleApp) (w : world) :
  run_turn self w =
    let out := stdout w ++ main_menu in
    match stdin w with
    | [] => (Raise EOFError, World (heap w) [] out)
    | line :: rest =>
      if decide (strip line = u "1") then
        match _handle_add_vehicle self (World (heap w) rest out) with
        | (Ok self', w') => (Ok (Some self'), w')
        | (Raise e, w') => (Raise e, w')
        end
      else if decide (strip line = u "2") then
        match display recursion_limit (heap w) (root_group self) 0 with
        | Ok text => (Ok (Some self), World (heap w) rest (out ++ [Print (nl ++ text)]))
        | Raise e => (Raise e, World (heap w) rest out)
        end
      else if decide (strip line = u "3") then
        (Ok None, World (heap w) rest (out ++ [Print (u "До свидания!")]))
      else
        (Ok (Some self),
         World (heap w) rest
               (out ++ [Print (u "Неизвестная команда. Попробуйте снова.")]))
    end.
Proof.
  unfold run_turn, main_menu. cbv zeta.
  do 4 (rewrite bind_eq; unfold print at 1; cbn [heap stdin stdout]).
  rewrite bind_eq. unfold input at 1. cbn [heap stdin stdout].
  rewrite <- !app_assoc. cbn [app].
  destruct (stdin w) as [|line rest]; [reflexivity|].
  destruct (decide (strip line = u "1")) as [_|_].
  { rewrite bind_eq.
    destruct (_handle_add_vehicle self _) as [[self'|e] w']; reflexivity. }
  destruct (decide (strip line = u "2")) as [_|_].
  { rewrite bind_eq. unfold render at 1. cbn [heap stdin stdout].
    destruct (display recursion_limit (heap w) (root_group self) 0) as [text|e];
      [|reflexivity].
    rewrite bind_eq. unfold print at 1. cbn [heap stdin stdout].
    rewrite <- !app_assoc. reflexivity. }
  destruct (decide (strip line = u "3")) as [_|_].
  { rewrite bind_eq. unfold print at 1. cbn [heap stdin stdout].
    rewrite <- !app_assoc. reflexivity. }
  rewrite bind_eq. unfold print at 1. cbn [heap stdin stdout].
  rewrite <- !app_assoc. reflexivity.
Qed.

Lemma handle_add_vehicle_eof (self : FleetConsoleApp) (w : world) (line : str) :
  stdin w = [line] →
  strip line ≠ [] →
  _handle_add_vehicle self w =
    (Raise EOFError, World (heap w) [] (stdout w ++ [Prompt name_prompt] ++ ask_menu)).
Proof.
  intros Hin Hname. rewrite handle_add_vehicle_run. cbv zeta.
  rewrite Hin. destruct (strip line) as [|c name]; [contradiction|].
  rewrite ask_energy_source_run. cbn [heap stdin stdout]. cbv zeta.
  rewrite <- !app_assoc. reflexivity.
Qed.

Lemma int_raises (s : str) (e : exn) : int s = Raise e → e = ValueError.
Proof.
  unfold int.
  destruct (match strip_by int_space s with [] => _ | _ :: _ => _ end) as [negative ds].
  destruct (int_digits true 0%N 0%nat ds) as [[n count]|]; [|congruence].
  destruct (max_str_digits <? count)%nat; congruence.
Qed.

(** ** The loop ends *)

Lemma handle_add_vehicle_total (self : FleetConsoleApp) (w : world) :
  registry_inv self (heap w) →
  ∃ r w',
    _handle_add_vehicle self w = (r, w') ∧
    match r with
    | Ok self' =>
      registry_inv self' (heap w') ∧ (length (stdin w') < length (stdin w))%nat
    | Raise e => e = EOFError ∨ e = ValueError
    end.
Proof.
  intros Hinv.
  destruct (stdin w) as [|line rest] eqn:Hin.
  { rewrite handle_add_vehicle_run. cbv zeta. rewrite Hin.
    eexists _, _. split; [reflexivity|]. now left. }
  destruct (decide (strip line = [])) as [Hname|Hname].
  { rewrite (handle_add_vehicle_empty _ _ _ _ Hin Hname).
    eexists _, _. split; [reflexivity|]. cbn. split; [exact Hinv|lia]. }
  destruct rest as [|line2 rest2].
  { rewrite (handle_add_vehicle_eof _ _ _ Hin Hname).
    eexists _, _. split; [reflexivity|]. now left. }
  destruct (isdigit (strip line2)) eqn:Hdigit; cycle 1.
  { rewrite (handle_add_vehicle_not_digit _ _ _ _ _ Hin Hname Hdigit).
    eexists _, _. split; [reflexivity|]. cbn. split; [exact Hinv|lia]. }
  destruct (int (strip line2)) as [n|e] eqn:Hint; cycle 1.
  { rewrite (handle_add_vehicle_int_raises _ _ _ _ _ _ Hin Hname Hdigit Hint).
    eexists _, _. split; [reflexivity|]. right. eapply int_raises, Hint. }
  destruct (decide (1 ≤ n ≤ 4)) as [Hn|Hn].
  - destruct (handle_add_vehicle_accepts _ _ _ _ _ _ Hinv Hin Hname Hdigit Hint Hn)
      as (tag & self' & h' & v & g & _ & -> & P).
    eexists _, _. split; [reflexivity|]. cbn.
    split; [exact (post_inv _ _ _ _ _ _ _ _ P)|lia].
  - rewrite (handle_add_vehicle_out_of_range _ _ _ _ _ n Hin Hname Hdigit Hint)
      by lia.
    eexists _, _. split; [reflexivity|]. cbn. split; [exact Hinv|lia].
Qed.

Lemma run_turn_total (self : FleetConsoleApp) (w : world) :
  registry_inv self (heap w) →
  ∃ r w',
    run_turn self w = (r, w') ∧
    match r with
    | Ok (Some self') =>
      registry_inv self' (heap w') ∧ (length (stdin w') < length (stdin w))%nat
    | Ok None => True
    | Raise e => e = EOFError ∨ e = ValueError
    end.
Proof.
  intros Hinv. rewrite run_turn_run. cbv zeta.
  destruct (stdin w) as [|line rest] eqn:Hin.
  { eexists _, _. split; [reflexivity|]. now left. }
  destruct (decide (strip line = u "1")) as [_|_].
  { destruct (handle_add_vehicle_total self
                (World (heap w) rest (stdout w ++ main_menu)) Hinv)
      as ([self'|e] & w' & -> & H).
    - eexists _, _. split; [reflexivity|]. cbn in *. split; [tauto|lia].
    - eexists _, _. split; [reflexivity|]. exact H. }
  destruct (decide (strip line = u "2")) as [_|_].
  { destruct (display_total (heap w) recursion_limit (root_group self) 0
                (registry_tree self (heap w) 997 Hinv)) as [text ->].
    eexists _, _. split; [reflexivity|]. cbn. split; [exact Hinv|lia]. }
  destruct (decide (strip line = u "3")) as [_|_].
  { eexists _, _. split; [reflexivity|]. exact I. }
  eexists _, _. split; [reflexivity|]. cbn. split; [exact Hinv|lia].
Qed.

Lemma run_loop_total (fuel : nat) :
  ∀ (self : FleetConsoleApp) (w : world),
    registry_inv self (heap w) →
    (length (stdin w) < fuel)%nat →
    ∃ r w',
      run_loop fuel self w = Some (r, w') ∧
      (r = Ok tt ∨ r = Raise EOFError ∨ r = Raise ValueError).
Proof.
  induction fuel as [|fuel IH]; intros self w Hinv Hfuel; [lia|].
  cbn [run_loop].
  destruct (run_turn_total self w Hinv) as ([[self'|]|e] & w' & -> & H).
  - destruct H as [Hinv' Hlen]. apply IH; [exact Hinv'|lia].
  - eexists _, _. split; [reflexivity|]. now left.
  - eexists _, _. split; [reflexivity|]. right.
    destruct H as [-> | ->]; [now left|now right].
Qed.

(** [main] returns on every console input: the loop ends by the exit
    command, at the end of the input, or by a [ValueError]. *)
Lemma main_total (lines : list str) :
  ∃ r w,
    main lines = Some (r, w) ∧
    (r = Ok tt ∨ r = Raise EOFError ∨ r = Raise ValueError).
Proof.
  unfold main. rewrite init_run. unfold run, print. cbn [heap stdin stdout].
  apply run_loop_total; [exact init_inv|]. cbn. lia.
Qed.

(** ** Rejected input *)

(** C5, as the code has it.  An empty name (after [strip]), a choice that
    is not a digit string, and a choice that [int] reads as a number
    outside 1..4 are each answered by a message, after which
    [_handle_add_vehicle] returns: it read the one or two lines and does
    not ask again, the store and the registry are as before, and the turn
    of [run] that called it ends normally, so that the loop goes on with
    the main menu. *)
Theorem handle_add_vehicle_rejects (self : FleetConsoleApp) (w : world)
    (line : str) (rest : list str) :
  stdin w = line :: rest →
  (strip line = [] →
     _handle_add_vehicle self w =
       (Ok self,
        World (heap w) rest
              (stdout w ++ [Prompt name_prompt;
                            Print (u "Название автобуса не может быть пустым.")]))) ∧
  (∀ line2 rest2,
     strip line ≠ [] → rest = line2 :: rest2 →
     (isdigit (strip line2) = false →
        _handle_add_vehicle self w =
          (Ok self,
           World (heap w) rest2
                 (stdout w ++ [Prompt name_prompt] ++ ask_menu
                    ++ [Print (u "Нужно ввести номер варианта.")]))) ∧
     (∀ n, isdigit (strip line2) = true → int (strip line2) = Ok n →
           n < 1 ∨ 4 < n →
        _handle_add_vehicle self w =
          (Ok self,
           World (heap w) rest2
                 (stdout w ++ [Prompt name_prompt] ++ ask_menu
                    ++ [Print (u "Нет такого источника энергии.")])))) ∧
  (∀ command w0 w',
     stdin w0 = command :: stdin w → strip command = u "1" →
     heap w0 = heap w → stdout w = stdout w0 ++ main_menu →
     _handle_add_vehicle self w = (Ok self, w') →
     run_turn self w0 = (Ok (Some self), w')).
Proof.
  intros Hin. split; [|split].
  - intros Hname. exact (handle_add_vehicle_empty _ _ _ _ Hin Hname).
  - intros line2 rest2 Hname ->. split.
    + intros Hdigit.
      exact (handle_add_vehicle_not_digit _ _ _ _ _ Hin Hname Hdigit).
    + intros n Hdigit Hint Hn.
      exact (handle_add_vehicle_out_of_range _ _ _ _ _ n Hin Hname Hdigit Hint Hn).
  - intros command w0 w' Hin0 Hcommand Hheap Hout Hrun.
    rewrite run_turn_run. cbv zeta. rewrite Hin0.
    rewrite decide_True by exact Hcommand.
    rewrite Hheap, <- Hout.
    replace (World (heap w) (stdin w) (stdout w)) with w by (destruct w; reflexivity).
    rewrite Hrun. reflexivity.
Qed.

Lemma handle_add_vehicle_rejects_witness :
  let w := World [FleetGroup (u "Автопарк") []] [u "   "; u "Bus-1"; u "1"] [] in
  _handle_add_vehicle (App 0%nat ∅) w =
    (Ok (App 0%nat ∅),
     World [FleetGroup (u "Автопарк") []] [u "Bus-1"; u "1"]
           [Prompt name_prompt; Print (u "Название автобуса не может быть пустым.")]).
Proof.
  intros w.
  exact (proj1 (handle_add_vehicle_rejects (App 0%nat ∅) w (u "   ")
                  [u "Bus-1"; u "1"] eq_refl) eq_refl).
Defined.

(** C5 as stated fails: after the rejected input the program does not ask
    for it again.  With the lines "1", "" and "3", the empty name is
    rejected and the next line is read as a command of the main menu, "3",
    which ends the program; the name is asked for once.  With the lines
    "1", "Bus-1", "x" and "3", the choice "x" is rejected and "3" is again
    read as the exit command, not as the third energy source: no vehicle
    is made. *)
Lemma rejected_input_not_asked_again :
  (∃ w, main [u "1"; u ""; u "3"] = Some (Ok tt, w) ∧
        prompts (stdout w) = [u "> "; name_prompt; u "> "] ∧
        heap w = [FleetGroup (u "Автопарк") []]) ∧
  ¬ (∃ r w before after,
       main [u "1"; u ""; u "3"] = Some (r, w) ∧
       prompts (stdout w) = before ++ name_prompt :: name_prompt :: after) ∧
  (∃ w, main [u "1"; u "Bus-1"; u "x"; u "3"] = Some (Ok tt, w) ∧
        prompts (stdout w) = [u "> "; name_prompt; u "> "; u "> "] ∧
        last (stdout w) = Some (Print (u "До свидания!")) ∧
        heap w = [FleetGroup (u "Автопарк") []]).
Proof.
  split; [|split].
  - eexists. split; [vm_compute; reflexivity|]. vm_compute. repeat split.
  - intros (r & w & before & after & Hmain & Hprompts).
    vm_compute in Hmain. injection Hmain as _ <-.
    vm_compute in Hprompts.
    destruct before as [|? [|? [|? [|? ?]]]]; discriminate Hprompts.
  - eexists. split; [vm_compute; reflexivity|]. vm_compute. repeat split.
Qed.

(** ** A choice that [isdigit] accepts and [int] refuses *)

(** C8 fails on the code.  The superscript two is a digit for
    [str.isdigit], so the choice passes the check of line 104, and is not
    a decimal digit, so [int] raises [ValueError] on line 107; nothing
    handles it and it ends [main]. *)
Theorem superscript_choice_raises :
  isdigit (strip (u "²")) = true ∧
  int (strip (u "²")) = Raise ValueError ∧
  ∃ w, main [u "1"; u "Bus-1"; u "²"; u "3"] = Some (Raise ValueError, w) ∧
       stdin w = [u "3"].
Proof.
  split; [vm_compute; reflexivity|]. split; [vm_compute; reflexivity|].
  eexists. split; vm_compute; reflexivity.
Qed.

(** ** The name that reaches the registry *)

(** C9.  The name is the line read, without the whitespace at its two
    ends.  A line of whitespace only is rejected as empty.  When the entry
    is accepted, [add_vehicle] is called with the stripped name, and on a
    registry built by the program the one vehicle it creates holds the
    stripped name and the energy source chosen; no other vehicle
    appears. *)
Theorem name_is_stripped (self : FleetConsoleApp) (w : world)
    (line : str) (rest : list str) :
  stdin w = line :: rest →
  (∃ l r, line = l ++ strip line ++ r ∧
          Forall (λ c, isspace_char c = true) l ∧
          Forall (λ c, isspace_char c = true) r ∧
          (∀ c, head (strip line) = Some c → isspace_char c = false) ∧
          (∀ c, last (strip line) = Some c → isspace_char c = false)) ∧
  (Forall (λ c, isspace_char c = true) line →
     _handle_add_vehicle self w =
       (Ok self,
        World (heap w) rest
              (stdout w ++ [Prompt name_prompt;
                            Print (u "Название автобуса не может быть пустым.")]))) ∧
  ((∃ r w', _handle_add_vehicle self w = (r, w') ∧ heap w' = heap w ∧
            (r = Ok self ∨ ∃ e, r = Raise e)) ∨
   (∃ line2 rest2 tag,
      rest = line2 :: rest2 ∧ strip line ≠ [] ∧ tag ∈ sources ∧
      _handle_add_vehicle self w =
        (self' ← add_vehicle self (strip line) tag;
         print (confirmation (strip line) tag);;
         mret self')
          (World (heap w) rest2 ((stdout w ++ [Prompt name_prompt]) ++ ask_menu)))) ∧
  (∀ line2 rest2 n,
     registry_inv self (heap w) →
     rest = line2 :: rest2 → strip line ≠ [] →
     isdigit (strip line2) = true → int (strip line2) = Ok n → 1 ≤ n ≤ 4 →
     ∃ tag self' w' v,
       sources !! Z.to_nat (n - 1) = Some tag ∧
       _handle_add_vehicle self w = (Ok self', w') ∧
       heap w !! v = None ∧
       heap w' !! v = Some (Vehicle (strip line) tag) ∧
       ∀ i name energy_source,
         heap w' !! i = Some (Vehicle name energy_source) →
         i = v ∨ heap w !! i = Some (Vehicle name energy_source)).
Proof.
  intros Hin. split; [|split; [|split]].
  - apply strip_by_spec.
  - intros Hspace.
    exact (handle_add_vehicle_empty _ _ _ _ Hin (strip_all_space _ Hspace)).
  - destruct (handle_add_vehicle_registry self w)
      as [H|(line' & line2 & rest2 & n & tag & Hin' & Hname & _ & _ & _ & Etag & Hrun)].
    + left. exact H.
    + right. rewrite Hin in Hin'. injection Hin' as <- ->.
      exists line2, rest2, tag. split; [reflexivity|]. split; [exact Hname|].
      split; [|exact Hrun]. eapply list_elem_of_lookup_2, Etag.
  - intros line2 rest2 n Hinv -> Hname Hdigit Hint Hn.
    destruct (handle_add_vehicle_accepts _ _ _ _ _ _ Hinv Hin Hname Hdigit Hint Hn)
      as (tag & self' & h' & v & g & Etag & Hrun & P).
    exists tag, self', (World h' rest2
      (stdout w ++ [Prompt name_prompt] ++ ask_menu
         ++ [Print (confirmation (strip line) tag)])), v.
    split; [exact Etag|]. split; [exact Hrun|]. cbn [heap].
    split; [exact (post_fresh _ _ _ _ _ _ _ _ P)|].
    split; [exact (post_leaf _ _ _ _ _ _ _ _ P)|].
    exact (post_only _ _ _ _ _ _ _ _ P).
Qed.

Lemma name_is_stripped_witness :
  let w := World [FleetGroup (u "Автопарк") []] [u "  Bus 1 "; u "3"] [] in
  ∃ self' w',
    _handle_add_vehicle (App 0%nat ∅) w = (Ok self', w') ∧
    heap w' !! 2%nat = Some (Vehicle (u "Bus 1") (u "газ")).
Proof.
  intros w.
  destruct (proj2 (proj2 (proj2 (name_is_stripped (App 0%nat ∅) w (u "  Bus 1 ")
                                   [u "3"] eq_refl)))
              (u "3") [] 3 init_inv eq_refl ltac:(vm_compute; discriminate)
              eq_refl eq_refl ltac:(lia))
    as (tag & self' & w' & v & Etag & Hrun & Hfresh & Hleaf & _).
  exists self', w'. split; [exact Hrun|].
  vm_compute in Etag. injection Etag as <-.
  assert (v = 2%nat) as <-; [|exact Hleaf].
  vm_compute in Hrun. injection Hrun as _ <-. vm_compute in Hleaf.
  destruct v as [|[|[|v]]]; [discriminate..|reflexivity|destruct v; discriminate].
Defined.

(** ** The energy sources of the menu *)

(** C4 as stated fails: none of the four English words of the
    specification is among [sources], whose entries are Russian words. *)
Lemma spec_tags_not_sources :
  ¬ (∀ tag, tag ∈ sources ↔ tag ∈ spec_tags).
Proof.
  intros H.
  assert (Hin : u "gas" ∈ sources) by (apply H; apply (bool_decide_unpack _); vm_compute; exact I).
  revert Hin. apply (bool_decide_unpack _). vm_compute. exact I.
Qed.

Lemma ask_energy_source_selects (i : nat) (tag : str) (w : world) (rest : list str) :
  sources !! i = Some tag →
  stdin w = str_of_int (Z.of_nat i + 1) :: rest →
  _ask_energy_source w = (Ok (Some tag), World (heap w) rest (stdout w ++ ask_menu)).
Proof.
  intros Etag Hin. rewrite ask_energy_source_run. cbv zeta. rewrite Hin.
  destruct i as [|[|[|[|i]]]]; try discriminate Etag;
    vm_compute in Etag; injection Etag as <-;
    match goal with
    | |- context [strip ?s] =>
        let s' := eval vm_compute in (strip s) in change (strip s) with s'
    end;
    match goal with
    | |- context [isdigit ?s] =>
        change (isdigit s) with true;
        let r := eval vm_compute in (int s) in change (int s) with r
    end;
    reflexivity.
Qed.

(** C4, as the code has it.  The energy sources are the four Russian
    words of [sources], offered under the numbers 1 to 4.  A choice
    returns one of them or nothing, each of them is returned for its
    number, and the registry is only reached with one of them (and a name
    that is not empty); in every other case the store is left as it
    was. *)
Theorem energy_sources_menu :
  sources = [u "электричество"; u "бензин"; u "газ"; u "гибрид"] ∧
  (∀ w, ∃ r w' extra,
     _ask_energy_source w = (r, w') ∧ heap w' = heap w ∧
     stdout w' = stdout w ++ ask_menu ++ extra) ∧
  (∀ w tag w', _ask_energy_source w = (Ok (Some tag), w') → tag ∈ sources) ∧
  (∀ i tag w rest,
     sources !! i = Some tag →
     stdin w = str_of_int (Z.of_nat i + 1) :: rest →
     _ask_energy_source w
       = (Ok (Some tag), World (heap w) rest (stdout w ++ ask_menu))) ∧
  (∀ self w,
     (∃ r w', _handle_add_vehicle self w = (r, w') ∧ heap w' = heap w ∧
              (r = Ok self ∨ ∃ e, r = Raise e)) ∨
     (∃ line line2 rest2 tag,
        stdin w = line :: line2 :: rest2 ∧ strip line ≠ [] ∧ tag ∈ sources ∧
        _handle_add_vehicle self w =
          (self' ← add_vehicle self (strip line) tag;
           print (confirmation (strip line) tag);;
           mret self')
            (World (heap w) rest2 ((stdout w ++ [Prompt name_prompt]) ++ ask_menu)))).
Proof.
  split; [reflexivity|]. split; [|split; [|split]].
  - intros w. rewrite ask_energy_source_run. cbv zeta.
    destruct (stdin w) as [|line rest].
    { eexists _, _, []. cbn [heap stdout]. rewrite app_nil_r. eauto. }
    destruct (isdigit (strip line)); cycle 1.
    { eexists _, _, [_]. cbn [heap stdout]. rewrite app_assoc. eauto. }
    destruct (int (strip line)) as [n|e]; cycle 1.
    { eexists _, _, []. cbn [heap stdout]. rewrite app_nil_r. eauto. }
    destruct ((1 <=? n) && (n <=? 4)); cycle 1.
    { eexists _, _, [_]. cbn [heap stdout]. rewrite app_assoc. eauto. }
    destruct (sources !! Z.to_nat (n - 1));
      eexists _, _, []; cbn [heap stdout]; rewrite app_nil_r; eauto.
  - intros w tag w'. rewrite ask_energy_source_run. cbv zeta.
    destruct (stdin w) as [|line rest]; [discriminate|].
    destruct (isdigit (strip line)); [|discriminate].
    destruct (int (strip line)) as [n|e]; [|discriminate].
    destruct ((1 <=? n) && (n <=? 4)); [|discriminate].
    destruct (sources !! Z.to_nat (n - 1)) as [tag'|] eqn:Etag; [|discriminate].
    intros [= <- _]. eapply list_elem_of_lookup_2, Etag.
  - intros i tag w rest. apply ask_energy_source_selects.
  - intros self w.
    destruct (handle_add_vehicle_registry self w)
      as [H|(line & line2 & rest2 & n & tag & Hin & Hname & _ & _ & _ & Etag & Hrun)].
    + left. exact H.
    + right. exists line, line2, rest2, tag.
      split; [exact Hin|]. split; [exact Hname|]. split; [|exact Hrun].
      eapply list_elem_of_lookup_2, Etag.
Qed.

(** ** The scenario of the specification *)

Example scenario_render :
  ∃ w, main [u "1"; u "Bus-1"; u "1"; u "1"; u "Bus-2"; u "2";
             u "1"; u "Bus-3"; u "1"; u "2"; u "3"] = Some (Ok tt, w) ∧
       heap w = [ FleetGroup (u "Автопарк") [1; 3]%nat;
                  FleetGroup (u "Электричество") [2; 5]%nat;
                  Vehicle (u "Bus-1") (u "электричество");
                  FleetGroup (u "Бензин") [4%nat];
                  Vehicle (u "Bus-2") (u "бензин");
                  Vehicle (u "Bus-3") (u "электричество") ] ∧
       display recursion_limit (heap w) 0%nat 0 =
         Ok (u "Автопарк:" ++ nl ++
             u "  Электричество:" ++ nl ++
             u "    Bus-1 (электричество)" ++ nl ++
             u "    Bus-3 (электричество)" ++ nl ++
             u "  Бензин:" ++ nl ++
             u "    Bus-2 (бензин)").
Proof.
  eexists. split; [vm_compute; reflexivity|]. split; vm_compute; reflexivity.
Qed.

(** * Further properties of the code *)

(** ** [_get_or_create_energy_group] *)



(** ** [add] followed by [remove] *)






(** ** What [remove] takes for equal *)

(** X3.  [remove] finds a vehicle by its fields and a group by identity.
    Given any vehicle object, it succeeds as soon as some child is a
    vehicle with the same name and energy source, also when the object
    given is not itself a child; given a group that is not itself a
    child it raises [ValueError] and changes nothing, whatever the
    children are. *)
Theorem remove_by_value (w : world) (self component : ref) (name : str) (cs : list ref) :
  heap w !! self = Some (FleetGroup name cs) →
  (∀ n e x,
     heap w !! component = Some (Vehicle n e) →
     x ∈ cs → heap w !! x = Some (Vehicle n e) →
     ∃ pre y post,
       cs = pre ++ y :: post ∧
       (y = component ∨ heap w !! y = Some (Vehicle n e)) ∧
       Forall (λ z, z ≠ component ∧ heap w !! z ≠ Some (Vehicle n e)) pre ∧
       remove self component w =
         (Ok tt,
          World (<[self := FleetGroup name (pre ++ post)]> (heap w))
                (stdin w) (stdout w))) ∧
  (∀ gname gcs,
     heap w !! component = Some (FleetGroup gname gcs) →
     component ∉ cs →
     remove self component w = (Raise ValueError, w)).
Proof.
  intros E. rewrite (remove_group _ _ _ _ _ E). split.
  - intros n e x Ec Hx Ex.
    destruct (list_remove (λ child, component_eq (heap w) child component) cs)
      as [cs'|] eqn:Er.
    + destruct (list_remove_Some _ _ _ Er) as (pre & y & post & -> & Hpre & Hy & ->).
      exists pre, y, post. split; [reflexivity|]. split; [|split; [|reflexivity]].
      * unfold component_eq in Hy. rewrite Ec in Hy.
        apply orb_true_iff in Hy as [Hy|Hy].
        -- left. apply bool_decide_eq_true_1 in Hy. exact Hy.
        -- right. destruct (heap w !! y) as [[ny cy|ny ey]|]; try discriminate.
           apply bool_decide_eq_true_1 in Hy as [-> ->]. reflexivity.
      * eapply Forall_impl; [exact Hpre|]. intros z Hz. cbn beta in Hz.
        unfold component_eq in Hz. rewrite Ec in Hz.
        apply orb_false_iff in Hz as [Hz1 Hz2].
        apply bool_decide_eq_false_1 in Hz1. split; [exact Hz1|].
        intros Ez. rewrite Ez in Hz2.
        rewrite bool_decide_eq_true_2 in Hz2 by (split; reflexivity). discriminate.
    + exfalso. apply list_remove_None in Er.
      rewrite Forall_forall in Er. specialize (Er x Hx). cbn beta in Er.
      unfold component_eq in Er. rewrite Ex, Ec in Er.
      rewrite (bool_decide_eq_true_2 (n = n ∧ e = e)) in Er by (split; reflexivity).
      rewrite orb_true_r in Er. discriminate.
  - intros gname gcs Ec Hnot.
    assert (Hnone : Forall (λ c, component_eq (heap w) c component = false) cs).
    { apply Forall_forall. intros x Hx. unfold component_eq. rewrite Ec.
      rewrite bool_decide_eq_false_2 by (intros ->; contradiction).
      destruct (heap w !! x) as [[? ?|? ?]|]; reflexivity. }
    apply list_remove_None in Hnone. rewrite Hnone. reflexivity.
Qed.

Lemma remove_by_value_witness :
  let h := [FleetGroup (u "Газ") [1%nat; 3%nat];
            Vehicle (u "Bus-1") (u "газ"); Vehicle (u "Bus-1") (u "газ");
            FleetGroup (u "Пусто") []; FleetGroup (u "Пусто") []] in
  (∃ w', remove 0%nat 2%nat (World h [] []) = (Ok tt, w') ∧
         children (heap w') 0%nat = [3%nat]) ∧
  remove 0%nat 4%nat (World h [] []) = (Raise ValueError, World h [] []).
Proof.
  intros h.
  destruct (remove_by_value (World h [] []) 0%nat 2%nat (u "Газ") [1%nat; 3%nat] eq_refl)
    as [Hvehicle _].
  destruct (remove_by_value (World h [] []) 0%nat 4%nat (u "Газ") [1%nat; 3%nat] eq_refl)
    as [_ Hgroup].
  split.
  - destruct (Hvehicle (u "Bus-1") (u "газ") 1%nat eq_refl ltac:(constructor) eq_refl)
      as (pre & y & post & Hcs & _ & Hpre & ->).
    eexists. split; [reflexivity|].
    destruct pre as [|z pre].
    + injection Hcs as <- <-. reflexivity.
    + exfalso. injection Hcs as <- _. inversion Hpre as [|? ? [_ Hz] _]; subst.
      apply Hz. reflexivity.
  - apply (Hgroup (u "Пусто") [] eq_refl).
    rewrite !not_elem_of_cons. repeat split; [lia|lia|apply not_elem_of_nil].
Defined.

(** ** A group inside itself *)

Lemma mapM_result_cases {A B} (f : A → result B) (e0 : exn) (l : list A) :
  Forall (λ x, (∃ y, f x = Ok y) ∨ f x = Raise e0) l →
  (∃ ys, mapM f l = Ok ys) ∨ mapM f l = Raise e0.
Proof.
  induction 1 as [|x l Hx _ IH].
  - left. exists []. reflexivity.
  - change (mapM f (x :: l)) with (y ← f x; k ← mapM f l; mret (y :: k)).
    destruct Hx as [[y ->]| ->]; [|right; reflexivity].
    destruct IH as [[ys ->]| ->]; [|right; reflexivity].
    left. exists (y :: ys). reflexivity.
Qed.

Lemma display_closed (h : list FleetComponent) (depth : nat) :
  heap_closed h →
  ∀ (self : ref) (indent : Z),
    (self < length h)%nat →
    (∃ text, display depth h self indent = Ok text) ∨
    display depth h self indent = Raise RecursionError.
Proof.
  intros Hclosed. induction depth as [|depth IH]; intros self indent Hlt.
  - right. reflexivity.
  - destruct (lookup_lt_is_Some_2 _ _ Hlt) as [[name cs|name tag] E].
    + rewrite (display_group _ _ _ _ _ _ E).
      destruct (mapM_result_cases
                  (λ child, display depth h child (indent + 2)) RecursionError cs)
        as [[lines ->]| ->].
      * eapply Forall_impl; [exact (Hclosed _ _ _ E)|].
        intros c Hc. apply IH, Hc.
      * left. eexists. reflexivity.
      * right. reflexivity.
    + left. eexists. apply display_vehicle, E.
Qed.

Lemma display_self_member (h : list FleetComponent) (g : ref) (name : str)
    (cs : list ref) :
  h !! g = Some (FleetGroup name cs) → g ∈ cs →
  ∀ (depth : nat) (indent : Z) (text : str), display depth h g indent ≠ Ok text.
Proof.
  intros E Hin. induction depth as [|depth IH]; intros indent text Ht.
  - discriminate.
  - apply (display_group_Ok _ _ _ _ _ _ _ E) in Ht as (lines & H2 & _).
    apply list_elem_of_lookup in Hin as [i Hi].
    destruct (Forall2_lookup_l _ _ _ _ _ H2 Hi) as (line & _ & Hline).
    exact (IH _ _ Hline).
Qed.

(** X4.  [add] makes no check of what it is given: a group can be added
    to itself.  After that [display] of the group returns no text at any
    depth, and in a store without dangling references what it raises is
    [RecursionError]. *)
Theorem add_self_then_display (w : world) (g : ref) (name : str) (cs : list ref) :
  heap w !! g = Some (FleetGroup name cs) →
  ∃ w1,
    add g g w = (Ok tt, w1) ∧
    (∀ depth indent text, display depth (heap w1) g indent ≠ Ok text) ∧
    (heap_closed (heap w) →
       ∀ depth indent, display depth (heap w1) g indent = Raise RecursionError).
Proof.
  intros E. pose proof (lookup_lt_Some _ _ _ E) as Hlt.
  rewrite (add_group _ _ _ _ _ E). eexists. split; [reflexivity|]. cbn [heap].
  set (h1 := <[g := FleetGroup name (cs ++ [g])]> (heap w)).
  assert (E1 : h1 !! g = Some (FleetGroup name (cs ++ [g])))
    by (apply list_lookup_insert_eq, Hlt).
  assert (Hnever : ∀ depth indent text, display depth h1 g indent ≠ Ok text).
  { apply (display_self_member _ _ _ _ E1).
    apply elem_of_app. right. constructor. }
  split; [exact Hnever|].
  intros Hclosed depth indent.
  assert (Hclosed1 : heap_closed h1).
  { intros r n cs' Er. unfold h1 in *. rewrite length_insert.
    destruct (decide (r = g)) as [->|Hne].
    - rewrite E1 in Er. injection Er as <- <-.
      apply Forall_app. split; [exact (Hclosed _ _ _ E)|].
      repeat constructor. exact Hlt.
    - rewrite list_lookup_insert_ne in Er by congruence.
      exact (Hclosed _ _ _ Er). }
  destruct (display_closed h1 depth Hclosed1 g indent) as [[text Ht]|Hr].
  - unfold h1. rewrite length_insert. exact Hlt.
  - exfalso. exact (Hnever _ _ _ Ht).
  - exact Hr.
Qed.

Lemma add_self_then_display_witness :
  let w := World [FleetGroup (u "Автопарк") []] [] [] in
  ∃ w1, add 0%nat 0%nat w = (Ok tt, w1) ∧
        display recursion_limit (heap w1) 0%nat 0 = Raise RecursionError.
Proof.
  intros w.
  destruct (add_self_then_display w 0%nat (u "Автопарк") [] eq_refl)
    as (w1 & Hadd & _ & Hraise).
  exists w1. split; [exact Hadd|]. apply Hraise.
  intros r n cs' Er. destruct r as [|r]; [|destruct r; discriminate Er].
  injection Er as _ <-. constructor.
Defined.

(** ** The choices on which [_ask_energy_source] raises *)

Lemma in_ranges_disjoint (rs1 rs2 : list (N * N)) (c : char) :
  forallb (λ r1, forallb (λ r2, (r1.2 <? r2.1)%N || (r2.2 <? r1.1)%N) rs2) rs1 = true →
  in_ranges rs1 c = true → in_ranges rs2 c = false.
Proof.
  unfold in_ranges. induction rs1 as [|r1 rs1 IH]; cbn [forallb existsb].
  - discriminate.
  - intros [H1 H2]%andb_true_iff [Hc|Hc]%orb_true_iff; [|exact (IH H2 Hc)].
    clear IH H2. apply andb_true_iff in Hc as [Hlo Hhi].
    induction rs2 as [|r2 rs2 IH2]; cbn [forallb existsb] in *; [reflexivity|].
    apply andb_true_iff in H1 as [H1 H1'].
    rewrite (IH2 H1'), orb_false_r.
    apply N.leb_le in Hlo, Hhi.
    apply andb_false_iff.
    apply orb_true_iff in H1 as [H1|H1]; apply N.ltb_lt in H1;
      [left|right]; apply N.leb_gt; lia.
Qed.

Lemma digit_not_space (c : char) :
  isdigit_char c = true → isspace_char c = false.
Proof.
  unfold isdigit_char, isdecimal_char, isspace_char.
  intros [H|H]%orb_true_iff; revert H; apply in_ranges_disjoint;
    vm_compute; reflexivity.
Qed.

Lemma digit_not_sign (c : char) :
  isdigit_char c = true →
  (c =? 0x5f)%N = false ∧ (c =? 0x2d)%N = false ∧ (c =? 0x2b)%N = false.
Proof.
  intros Hc.
  assert (H : in_ranges [(0x5f, 0x5f); (0x2d, 0x2d); (0x2b, 0x2b)]%N c = false).
  { unfold isdigit_char, isdecimal_char in Hc.
    apply orb_true_iff in Hc as [Hc|Hc]; revert Hc; apply in_ranges_disjoint;
      vm_compute; reflexivity. }
  repeat split;
    match goal with
    | |- (c =? ?k)%N = false =>
        destruct (N.eqb_spec c k) as [->|_]; [vm_compute in H; discriminate H|reflexivity]
    end.
Qed.

Lemma int_space_isspace (c : char) : int_space c = true → isspace_char c = true.
Proof.
  unfold int_space. destruct (c <? 0x80)%N; [|trivial].
  unfold isspace_char, in_ranges, whitespace_ranges. cbn [existsb fst snd].
  intros [H|H]%orb_true_iff.
  - rewrite H. reflexivity.
  - apply N.eqb_eq in H. subst c. reflexivity.
Qed.

Lemma strip_by_none (p : char → bool) (s : str) :
  Forall (λ c, p c = false) s → strip_by p s = s.
Proof.
  intros H. unfold strip_by.
  assert (Hl : ∀ t, Forall (λ c, p c = false) t → lstrip_by p t = t).
  { intros t Ht. destruct Ht as [|c t Hc _]; [reflexivity|].
    cbn [lstrip_by]. rewrite Hc. reflexivity. }
  rewrite (Hl s H), (Hl (reverse s)) by (apply Forall_reverse, H).
  apply reverse_involutive.
Qed.

Lemma decimal_value_Some (c : char) :
  isdecimal_char c = true → is_Some (decimal_value c).
Proof.
  unfold isdecimal_char, in_ranges, decimal_value.
  induction decimal_ranges as [|r rs IH]; cbn [existsb find]; [discriminate|].
  destruct ((r.1 <=? c)%N && (c <=? r.2)%N); [eauto|exact IH].
Qed.

Lemma decimal_value_None (c : char) :
  isdecimal_char c = false → decimal_value c = None.
Proof.
  unfold isdecimal_char, in_ranges, decimal_value.
  induction decimal_ranges as [|r rs IH]; cbn [existsb find]; [reflexivity|].
  destruct ((r.1 <=? c)%N && (c <=? r.2)%N); [discriminate|exact IH].
Qed.

Lemma int_digits_all (s : str) :
  ∀ (b : bool) (acc : N) (count : nat),
    s ≠ [] →
    Forall (λ c, (c =? 0x5f)%N = false ∧ isdecimal_char c = true) s →
    ∃ n, int_digits b acc count s = Some (n, (count + length s)%nat).
Proof.
  induction s as [|c s IH]; intros b acc count Hne Hs; [contradiction|].
  inversion Hs as [|? ? [Hus Hdec] Hs']; subst.
  cbn [int_digits length]. rewrite Hus.
  destruct (decimal_value_Some c Hdec) as [d ->].
  destruct s as [|c' s].
  - eexists. cbn [int_digits length]. f_equal. f_equal. lia.
  - destruct (IH false (acc * 10 + d)%N (S count) ltac:(discriminate) Hs') as [n ->].
    exists n. f_equal. f_equal. cbn [length]. lia.
Qed.

Lemma int_digits_bad (s : str) :
  ∀ (b : bool) (acc : N) (count : nat),
    Forall (λ c, (c =? 0x5f)%N = false) s →
    Exists (λ c, isdecimal_char c = false) s →
    int_digits b acc count s = None.
Proof.
  induction s as [|c s IH]; intros b acc count Hs Hbad; [inversion Hbad|].
  inversion Hs as [|? ? Hus Hs']; subst.
  cbn [int_digits]. rewrite Hus.
  destruct (isdecimal_char c) eqn:Hdec.
  - destruct (decimal_value_Some c Hdec) as [d ->].
    apply IH; [exact Hs'|].
    inversion Hbad as [? ? Hc|? ? Hbad']; subst; [congruence|exact Hbad'].
  - rewrite (decimal_value_None c Hdec). reflexivity.
Qed.

Lemma isdigit_true (s : str) :
  isdigit s = true → s ≠ [] ∧ Forall (λ c, isdigit_char c = true) s.
Proof.
  unfold isdigit. destruct s as [|c s]; [discriminate|].
  intros H. split; [discriminate|]. apply Forall_forall.
  intros x Hx. rewrite forallb_forall in H. apply H.
  apply list_elem_of_In, Hx.
Qed.

(** [int] on a string that passed [isdigit]. *)
Lemma int_of_digits (s : str) :
  isdigit s = true →
  (Exists (λ c, isdecimal_char c = false) s ∨ (max_str_digits < length s)%nat →
     int s = Raise ValueError) ∧
  (Forall (λ c, isdecimal_char c = true) s → (length s ≤ max_str_digits)%nat →
     ∃ n, int s = Ok n ∧ 0 ≤ n).
Proof.
  intros [Hne Hdigits]%isdigit_true.
  assert (Hstrip : strip_by int_space s = s).
  { apply strip_by_none. eapply Forall_impl; [exact Hdigits|].
    intros c Hc. cbn beta. destruct (int_space c) eqn:E; [|reflexivity].
    apply int_space_isspace in E. rewrite (digit_not_space c Hc) in E. discriminate. }
  assert (Hus : Forall (λ c, (c =? 0x5f)%N = false) s).
  { eapply Forall_impl; [exact Hdigits|]. intros c Hc. apply digit_not_sign, Hc. }
  assert (Hint : int s =
    match int_digits true 0%N 0%nat s with
    | Some (n, count) =>
      if (max_str_digits <? count)%nat then Raise ValueError else Ok (Z.of_N n)
    | None => Raise ValueError
    end).
  { unfold int. rewrite Hstrip. destruct s as [|c r]; [contradiction|].
    inversion Hdigits as [|? ? Hc _]; subst.
    destruct (digit_not_sign c Hc) as (_ & -> & ->). reflexivity. }
  rewrite Hint. split.
  - intros [Hbad|Hlong].
    + rewrite (int_digits_bad s true 0%N 0%nat Hus Hbad). reflexivity.
    + destruct (int_digits true 0%N 0%nat s) as [[n count]|] eqn:E; [|reflexivity].
      destruct (decide (Exists (λ c, isdecimal_char c = false) s)) as [Hbad|Hgood].
      * rewrite (int_digits_bad s true 0%N 0%nat Hus Hbad) in E. discriminate.
      * assert (Hall : Forall (λ c, (c =? 0x5f)%N = false ∧ isdecimal_char c = true) s).
        { apply Forall_forall. intros c Hc. split.
          - rewrite Forall_forall in Hus. apply Hus, Hc.
          - destruct (isdecimal_char c) eqn:Ec; [reflexivity|].
            exfalso. apply Hgood. apply Exists_exists. eauto. }
        destruct (int_digits_all s true 0%N 0%nat Hne Hall) as [n' E'].
        rewrite E' in E. injection E as _ <-.
        destruct (max_str_digits <? _)%nat eqn:Hb; [reflexivity|].
        apply Nat.ltb_ge in Hb. lia.
  - intros Hall Hshort.
    assert (Hall' : Forall (λ c, (c =? 0x5f)%N = false ∧ isdecimal_char c = true) s).
    { apply Forall_forall. intros c Hc. split.
      - rewrite Forall_forall in Hus. apply Hus, Hc.
      - rewrite Forall_forall in Hall. apply Hall, Hc. }
    destruct (int_digits_all s true 0%N 0%nat Hne Hall') as [n ->].
    destruct (max_str_digits <? _)%nat eqn:Hb.
    { apply Nat.ltb_lt in Hb. lia. }
    exists (Z.of_N n). split; [reflexivity|lia].
Qed.

(** X5.  [_ask_energy_source], given a line to read, raises exactly when
    the stripped line passes [isdigit] and either holds a digit that is
    not a decimal digit (a superscript, a circled digit, ...) or is longer
    than the interpreter's limit of 4300 digits.  What it raises is then
    [ValueError], after the line was read and with the store as it was;
    on every other line it returns. *)
Theorem ask_energy_source_raises (w : world) (line : str) (rest : list str) :
  stdin w = line :: rest →
  ((∃ e w', _ask_energy_source w = (Raise e, w')) ↔
     isdigit (strip line) = true ∧
     (Exists (λ c, isdecimal_char c = false) (strip line) ∨
      (max_str_digits < length (strip line))%nat)) ∧
  (∀ e w', _ask_energy_source w = (Raise e, w') →
           e = ValueError ∧ heap w' = heap w ∧ stdin w' = rest).
Proof.
  intros Hin. rewrite ask_energy_source_run. cbv zeta. rewrite Hin.
  destruct (isdigit (strip line)) eqn:Hdigit; cycle 1.
  { split.
    - split; [intros (e & w' & [=])|intros [[=] _]].
    - intros e w' [=]. }
  destruct (int_of_digits _ Hdigit) as [Hbad Hgood].
  destruct (int (strip line)) as [n|e0] eqn:Hint.
  - assert (Hok : ¬ (Exists (λ c, isdecimal_char c = false) (strip line) ∨
                     (max_str_digits < length (strip line))%nat)).
    { intros H. specialize (Hbad H). discriminate. }
    assert (Hreturns : ∀ e w',
      (if (1 <=? n) && (n <=? 4)
       then match sources !! Z.to_nat (n - 1) with
            | Some source =>
              (Ok (Some source), World (heap w) rest (stdout w ++ ask_menu))
            | None => (Raise IndexError, World (heap w) rest (stdout w ++ ask_menu))
            end
       else (Ok None,
             World (heap w) rest
                   ((stdout w ++ ask_menu) ++ [Print (u "Нет такого источника энергии.")])))
      ≠ (Raise e, w')).
    { intros e w'. destruct ((1 <=? n) && (n <=? 4)) eqn:Hn; [|discriminate].
      destruct (getitem_sources n ltac:(lia)) as (source & -> & _). discriminate. }
    split.
    + split.
      * intros (e & w' & H). exfalso. exact (Hreturns _ _ H).
      * intros [_ H]. contradiction.
    + intros e w' H. exfalso. exact (Hreturns _ _ H).
  - assert (e0 = ValueError) as -> by (eapply int_raises, Hint).
    split.
    + split.
      * intros _. split; [reflexivity|].
        destruct (decide (Exists (λ c, isdecimal_char c = false) (strip line)))
          as [Hex|Hnex]; [left; exact Hex|right].
        destruct (decide (max_str_digits < length (strip line))%nat) as [Hl|Hl];
          [exact Hl|exfalso].
        destruct Hgood as (n & Hn & _); [|lia|discriminate].
        apply Forall_forall. intros c Hc.
        destruct (isdecimal_char c) eqn:Ec; [reflexivity|].
        exfalso. apply Hnex, Exists_exists. eauto.
      * intros _. eexists _, _. reflexivity.
    + intros e w' [= <- <-]. repeat split.
Qed.

Lemma ask_energy_source_raises_witness :
  ∃ w', _ask_energy_source (World [] [u "²"] []) = (Raise ValueError, w').
Proof.
  destruct (ask_energy_source_raises (World [] [u "²"] []) (u "²") [] eq_refl)
    as [[_ Hraises] Honly].
  destruct Hraises as (e & w' & H).
  - split; [vm_compute; reflexivity|]. left.
    apply Exists_exists. exists 0xb2%N. split; [|vm_compute; reflexivity].
    apply (bool_decide_unpack _). vm_compute. exact I.
  - exists w'. destruct (Honly _ _ H) as [-> _]. exact H.
Defined.

(** ** What holds whatever is typed *)

Lemma lstrip_by_head (p : char → bool) (s : str) :
  (∀ c, head s = Some c → p c = false) → lstrip_by p s = s.
Proof.
  destruct s as [|c s]; [reflexivity|]. intros H. cbn [lstrip_by].
  rewrite (H c eq_refl). reflexivity.
Qed.

Lemma strip_idempotent (s : str) : strip (strip s) = strip s.
Proof.
  unfold strip.
  destruct (strip_by_spec isspace_char s) as (_ & _ & _ & _ & _ & Hhead & Hlast).
  set (t := strip_by isspace_char s) in *. unfold strip_by at 1.
  rewrite (lstrip_by_head _ t Hhead).
  rewrite (lstrip_by_head _ (reverse t)).
  - apply reverse_involutive.
  - intros c Hc. rewrite head_reverse in Hc. exact (Hlast c Hc).
Qed.

Lemma store_ok_step (self self' : FleetConsoleApp) (h h' : list FleetComponent)
    (name tag : str) (v g : ref) :
  store_ok self h →
  add_vehicle_post self h name tag self' h' v g →
  name ≠ [] → strip name = name → tag ∈ sources →
  store_ok self' h'.
Proof.
  intros Hok P Hname Hstrip Htag. split.
  - exact (post_inv _ _ _ _ _ _ _ _ P).
  - intros tag' g' E'. destruct (decide (tag' = tag)) as [->|Hne]; [exact Htag|].
    destruct (post_others _ _ _ _ _ _ _ _ P _ _ E' Hne) as [E0 _].
    exact (ok_keys _ _ Hok _ _ E0).
  - intros i n e E.
    destruct (post_only _ _ _ _ _ _ _ _ P _ _ _ E) as [->|E0].
    + rewrite (post_leaf _ _ _ _ _ _ _ _ P) in E. injection E as <- <-.
      repeat split; assumption.
    + exact (ok_vehicles _ _ Hok _ _ _ E0).
Qed.

Lemma init_store_ok : store_ok (App 0%nat ∅) [FleetGroup (u "Автопарк") []].
Proof.
  split.
  - exact init_inv.
  - intros tag g E. cbn [energy_groups] in E. rewrite lookup_empty in E. discriminate.
  - intros i n e E. destruct i as [|i]; [discriminate|destruct i; discriminate].
Qed.

Lemma handle_add_vehicle_outcome (self : FleetConsoleApp) (w : world) :
  store_ok self (heap w) →
  ∃ r w',
    _handle_add_vehicle self w = (r, w') ∧
    match r with
    | Ok self' =>
      store_ok self' (heap w') ∧ root_group self' = root_group self ∧
      (length (stdin w') < length (stdin w))%nat
    | Raise e =>
      heap w' = heap w ∧
      ((e = EOFError ∧ stdin w' = [] ∧ ∃ p, last (stdout w') = Some (Prompt p)) ∨
       (e = ValueError ∧ last (stdout w') = Some (Prompt (u "> "))))
    end.
Proof.
  intros Hok. pose proof (ok_inv _ _ Hok) as Hinv.
  destruct (stdin w) as [|line rest] eqn:Hin.
  { rewrite handle_add_vehicle_run. cbv zeta. rewrite Hin.
    eexists _, _. split; [reflexivity|]. cbn [heap stdin stdout].
    split; [reflexivity|]. left. split; [reflexivity|]. split; [reflexivity|].
    rewrite last_snoc. eauto. }
  destruct (decide (strip line = [])) as [Hname|Hname].
  { rewrite (handle_add_vehicle_empty _ _ _ _ Hin Hname).
    eexists _, _. split; [reflexivity|]. cbn.
    split; [exact Hok|]. split; [reflexivity|lia]. }
  destruct rest as [|line2 rest2].
  { rewrite (handle_add_vehicle_eof _ _ _ Hin Hname).
    eexists _, _. split; [reflexivity|]. cbn [heap stdin stdout].
    split; [reflexivity|]. left. split; [reflexivity|]. split; [reflexivity|].
    rewrite !app_assoc. unfold ask_menu. rewrite last_app_cons. cbn. eauto. }
  destruct (isdigit (strip line2)) eqn:Hdigit; cycle 1.
  { rewrite (handle_add_vehicle_not_digit _ _ _ _ _ Hin Hname Hdigit).
    eexists _, _. split; [reflexivity|]. cbn.
    split; [exact Hok|]. split; [reflexivity|lia]. }
  destruct (int (strip line2)) as [n|e] eqn:Hint; cycle 1.
  { rewrite (handle_add_vehicle_int_raises _ _ _ _ _ _ Hin Hname Hdigit Hint).
    eexists _, _. split; [reflexivity|]. cbn [heap stdin stdout].
    split; [reflexivity|]. right. split; [eapply int_raises, Hint|].
    rewrite !app_assoc. unfold ask_menu. rewrite last_app_cons. reflexivity. }
  destruct (decide (1 ≤ n ≤ 4)) as [Hn|Hn].
  - destruct (handle_add_vehicle_accepts _ _ _ _ _ _ Hinv Hin Hname Hdigit Hint Hn)
      as (tag & self' & h' & v & g & Etag & -> & P).
    eexists _, _. split; [reflexivity|]. cbn [heap stdin stdout length].
    split; [|split; [exact (post_root _ _ _ _ _ _ _ _ P)|lia]].
    eapply store_ok_step; [exact Hok|exact P|exact Hname|apply strip_idempotent|].
    eapply list_elem_of_lookup_2, Etag.
  - rewrite (handle_add_vehicle_out_of_range _ _ _ _ _ n Hin Hname Hdigit Hint)
      by lia.
    eexists _, _. split; [reflexivity|]. cbn.
    split; [exact Hok|]. split; [reflexivity|lia].
Qed.

Lemma run_turn_outcome (self : FleetConsoleApp) (w : world) :
  store_ok self (heap w) →
  ∃ r w',
    run_turn self w = (r, w') ∧
    match r with
    | Ok (Some self') =>
      store_ok self' (heap w') ∧ root_group self' = root_group self ∧
      (length (stdin w') < length (stdin w))%nat
    | Ok None => heap w' = heap w ∧ run_outcome (Ok tt) w'
    | Raise e => heap w' = heap w ∧ run_outcome (Raise e) w'
    end.
Proof.
  intros Hok. rewrite run_turn_run. cbv zeta.
  destruct (stdin w) as [|line rest] eqn:Hin.
  { eexists _, _. split; [reflexivity|]. cbn [heap stdin stdout run_outcome].
    split; [reflexivity|]. left. split; [reflexivity|]. split; [reflexivity|].
    unfold main_menu. rewrite last_app_cons. cbn. eauto. }
  destruct (decide (strip line = u "1")) as [_|_].
  { destruct (handle_add_vehicle_outcome self
                (World (heap w) rest (stdout w ++ main_menu)) Hok)
      as ([self'|e] & w' & -> & H).
    - eexists _, _. split; [reflexivity|]. cbn [heap stdin stdout length] in *.
      destruct H as (H1 & H2 & H3). split; [exact H1|]. split; [exact H2|lia].
    - eexists _, _. split; [reflexivity|]. exact H. }
  destruct (decide (strip line = u "2")) as [_|_].
  { destruct (display_total (heap w) recursion_limit (root_group self) 0
                (registry_tree self (heap w) 997 (ok_inv _ _ Hok))) as [text ->].
    eexists _, _. split; [reflexivity|]. cbn [heap stdin stdout length].
    split; [exact Hok|]. split; [reflexivity|lia]. }
  destruct (decide (strip line = u "3")) as [_|_].
  { eexists _, _. split; [reflexivity|]. cbn [heap stdin stdout run_outcome].
    split; [reflexivity|]. apply last_snoc. }
  eexists _, _. split; [reflexivity|]. cbn [heap stdin stdout length].
  split; [exact Hok|]. split; [reflexivity|lia].
Qed.

Lemma run_loop_outcome (fuel : nat) :
  ∀ (self : FleetConsoleApp) (w : world),
    store_ok self (heap w) →
    (length (stdin w) < fuel)%nat →
    ∃ r w' self',
      run_loop fuel self w = Some (r, w') ∧
      store_ok self' (heap w') ∧ root_group self' = root_group self ∧
      run_outcome r w'.
Proof.
  induction fuel as [|fuel IH]; intros self w Hok Hfuel; [lia|].
  cbn [run_loop].
  destruct (run_turn_outcome self w Hok) as ([[self1|]|e] & w1 & -> & H).
  - destruct H as (Hok1 & Hroot1 & Hlen).
    destruct (IH self1 w1 Hok1 ltac:(lia)) as (r & w' & self' & -> & Hok' & Hroot' & Hout).
    exists r, w', self'. split; [reflexivity|]. split; [exact Hok'|].
    split; [congruence|exact Hout].
  - destruct H as [Hheap Hout]. exists (Ok tt), w1, self.
    split; [reflexivity|]. rewrite Hheap. split; [exact Hok|]. split; [reflexivity|exact Hout].
  - destruct H as [Hheap Hout]. exists (Raise e), w1, self.
    split; [reflexivity|]. rewrite Hheap. split; [exact Hok|]. split; [reflexivity|exact Hout].
Qed.

Lemma main_run (lines : list str) :
  ∃ r w self,
    main lines = Some (r, w) ∧ store_ok self (heap w) ∧ root_group self = 0%nat ∧
    run_outcome r w.
Proof.
  unfold main. rewrite init_run. unfold run, print. cbn [heap stdin stdout].
  apply (run_loop_outcome _ (App 0%nat ∅)); [exact init_store_ok|]. cbn. lia.
Qed.


Lemma omap_length_le {A B} (f : A → option B) (l : list A) :
  (length (omap f l) ≤ length l)%nat.
Proof.
  induction l as [|x l IH]; cbn [omap list_omap length]; [lia|].
  destruct (f x); cbn [length]; lia.
Qed.

(** X7.  Whatever is typed, and however [main] ends, the store it leaves
    is a well-formed fleet.  The root is the group made first, its
    children are distinct groups, at most four, each named by the
    capitalized energy source of the menu it stands for and holding only
    vehicles of that energy source.  Every vehicle of the store has a name
    that is not empty and has no whitespace at its ends, and an energy
    source of the menu. *)
Theorem main_store_shape (lines : list str) :
  ∃ r w groups,
    main lines = Some (r, w) ∧
    heap w !! 0%nat = Some (FleetGroup (u "Автопарк") groups) ∧
    NoDup groups ∧ (length groups ≤ 4)%nat ∧
    (∀ g, g ∈ groups →
       ∃ tag cs,
         tag ∈ sources ∧
         heap w !! g = Some (FleetGroup (capitalize tag) cs) ∧
         Forall (λ c, ∃ name, heap w !! c = Some (Vehicle name tag)) cs) ∧
    (∀ i name tag,
       heap w !! i = Some (Vehicle name tag) →
       name ≠ [] ∧ strip name = name ∧ tag ∈ sources).
Proof.
  destruct (main_run lines) as (r & w & self & Hmain & Hok & Hroot0 & _).
  destruct (inv_root _ _ (ok_inv _ _ Hok)) as (groups & Hroot & Hnd & _ & Hgroups).
  rewrite Hroot0 in Hroot.
  exists r, w, groups. split; [exact Hmain|]. split; [exact Hroot|].
  split; [exact Hnd|]. split; [|split].
  - transitivity (length (omap (λ tag, energy_groups self !! tag) sources)).
    + apply submseteq_length, NoDup_submseteq; [exact Hnd|].
      intros g Hg. apply Hgroups in Hg as [tag Etag].
      apply list_elem_of_omap. exists tag. split; [|exact Etag].
      exact (ok_keys _ _ Hok _ _ Etag).
    + apply (omap_length_le _ sources).
  - intros g Hg. apply Hgroups in Hg as [tag Etag].
    destruct (inv_group _ _ (ok_inv _ _ Hok) _ _ Etag) as (cs & Eg & Hcs).
    exists tag, cs. split; [exact (ok_keys _ _ Hok _ _ Etag)|]. split; assumption.
  - exact (ok_vehicles _ _ Hok).
Qed.

(** ** The text of the fleet *)









Example fleet_text_scenario :
  fleet_text [(u "Bus-1", u "электричество"); (u "Bus-2", u "бензин");
              (u "Bus-3", u "электричество")] =
    u "Автопарк:" ++ nl ++
    u "  Электричество:" ++ nl ++
    u "    Bus-1 (электричество)" ++ nl ++
    u "    Bus-3 (электричество)" ++ nl ++
    u "  Бензин:" ++ nl ++
    u "    Bus-2 (бензин)".
Proof. vm_compute. reflexivity. Qed.
